(** * JobDatabaseEngine: the lock-guarded store of accepted jobs

    A shallow embedding of [utils/jobdatabase/engine.py].  Python values that
    travel through [json.load] / [json.dump] are JSON trees, dictionaries are
    finite maps with string keys, and the methods of the engine are programs
    of a small state-and-exception monad over a [World] that holds the
    durable document, the dictionaries owned by callers, the locks that are
    held, the class attribute of the singleton and the log of lock and file
    events. *)

From stdpp Require Import gmap strings list fin_maps pretty.
From Stdlib Require Import ZArith Lia.

#[local] Set Warnings "-register-all".
#[local] Open Scope Z_scope.

(** ** Values *)

(** What [json.load] can return and [json.dump] can write.  Floating-point
    numbers are left out of the model. *)
Inductive json : Type :=
  | JNull
  | JBool (b : bool)
  | JInt (z : Z)
  | JStr (s : string)
  | JList (l : list json)
  | JObj (o : gmap string json).

(** Object identities: dictionaries of callers, engine instances, locks. *)
Definition loc := nat.

(** The exceptions the engine can meet or build. *)
Inductive exn : Type :=
  | OSError
  | KeyError
  | IndexError
  | TypeError
  | AttributeError
  | ValueError (msg : string)
  | ValidationError (reason : string).

(** A validator chain is called with the job and answers [(is_valid, err)].
    Validation is free of side effects, so it is a function of the job's
    contents. *)
Definition ValidatorChain : Type := gmap string json → bool * option exn.

(** The attributes [__init__] binds on the instance. *)
Record EngineObj : Type := mkEngine {
  mutex : loc;
  validator : ValidatorChain
}.

(** ** The world *)

Inductive event : Type :=
  | EvAcquire (m : loc)
  | EvRelease (m : loc)
  | EvRead
  | EvWrite (doc : json).

Record World : Type := mkWorld {
  (** the content of Job.json as [json.load] returns it; [None] when the
      file cannot be opened (it is missing, or access is denied).  A file
      whose text is not JSON is left out of the model. *)
  disk : option json;
  (** whether Job.json can be opened for writing *)
  writable : bool;
  (** the dictionaries callers hold references to; a location that was never
      written reads as the empty dictionary *)
  heap : gmap loc (gmap string json);
  (** the locks that are held *)
  held : list loc;
  (** the identity the next allocated object gets *)
  next_id : loc;
  (** the class attribute [JobDatabaseEngine.jobdatabase_instance] *)
  jobdatabase_instance : option loc;
  (** the attributes of engine instances; an instance without an entry has
      none yet *)
  objects : gmap loc EngineObj;
  (** lock and file events, oldest first *)
  trace : list event
}.

Definition set_disk (d : option json) (w : World) : World :=
  mkWorld d (writable w) (heap w) (held w) (next_id w)
          (jobdatabase_instance w) (objects w) (trace w).

Definition set_heap (h : gmap loc (gmap string json)) (w : World) : World :=
  mkWorld (disk w) (writable w) h (held w) (next_id w)
          (jobdatabase_instance w) (objects w) (trace w).

Definition set_held (l : list loc) (w : World) : World :=
  mkWorld (disk w) (writable w) (heap w) l (next_id w)
          (jobdatabase_instance w) (objects w) (trace w).

Definition set_next_id (n : loc) (w : World) : World :=
  mkWorld (disk w) (writable w) (heap w) (held w) n
          (jobdatabase_instance w) (objects w) (trace w).

Definition set_instance (i : option loc) (w : World) : World :=
  mkWorld (disk w) (writable w) (heap w) (held w) (next_id w)
          i (objects w) (trace w).

Definition set_objects (o : gmap loc EngineObj) (w : World) : World :=
  mkWorld (disk w) (writable w) (heap w) (held w) (next_id w)
          (jobdatabase_instance w) o (trace w).

Definition log (e : event) (w : World) : World :=
  mkWorld (disk w) (writable w) (heap w) (held w) (next_id w)
          (jobdatabase_instance w) (objects w) (trace w ++ [e]).

(** ** The monad of engine programs *)

(** A call returns, raises, or blocks for ever on a lock that is held. *)
Inductive outcome (A : Type) : Type :=
  | Ret (a : A)
  | Raise (e : exn)
  | Block.
Arguments Ret {A} a.
Arguments Raise {A} e.
Arguments Block {A}.

Definition M (A : Type) : Type := World → outcome A * World.

#[export] Instance M_ret : MRet M := λ A a w, (Ret a, w).

#[export] Instance M_bind : MBind M := λ A B k m w,
  match m w with
  | (Ret a, w') => k a w'
  | (Raise e, w') => (Raise e, w')
  | (Block, w') => (Block, w')
  end.

Definition raise {A : Type} (e : exn) : M A := λ w, (Raise e, w).

Definition modify (f : World → World) : M unit := λ w, (Ret tt, f w).

Definition gets {A : Type} (f : World → A) : M A := λ w, (Ret (f w), w).

(** [try: m except h] *)
Definition try_except {A : Type} (m : M A) (h : exn → M A) : M A := λ w,
  match m w with
  | (Raise e, w') => h e w'
  | r => r
  end.

(** [try: m finally: c], for a clean-up that cannot fail. *)
Definition try_finally {A : Type} (m : M A) (c : World → World) : M A := λ w,
  match m w with
  | (Ret a, w') => (Ret a, c w')
  | (Raise e, w') => (Raise e, c w')
  | (Block, w') => (Block, w')
  end.

(** ** Python operations on loaded values *)

(** [v[k]] for a string key. *)
Definition getitem (v : json) (k : string) : M json :=
  match v with
  | JObj o => match o !! k with
              | Some x => mret x
              | None => raise KeyError
              end
  | _ => raise TypeError
  end.

(** [len(v)] *)
Definition py_len (v : json) : M nat :=
  match v with
  | JList l => mret (length l)
  | JStr s => mret (String.length s)
  | JObj o => mret (size o)
  | _ => raise TypeError
  end.

Fixpoint last_char (s : string) : option string :=
  match s with
  | EmptyString => None
  | String c EmptyString => Some (String c EmptyString)
  | String _ s' => last_char s'
  end.

(** [v[-1]] *)
Definition getitem_last (v : json) : M json :=
  match v with
  | JList l => match last l with
               | Some x => mret x
               | None => raise IndexError
               end
  | JStr s => match last_char s with
              | Some c => mret (JStr c)
              | None => raise IndexError
              end
  | JObj _ => raise KeyError
  | _ => raise TypeError
  end.

(** The integer a value is equal to, if any: [bool] is a subclass of
    [int]. *)
Definition as_int (v : json) : option Z :=
  match v with
  | JInt z => Some z
  | JBool b => Some (Z.b2z b)
  | _ => None
  end.

(** [v + 1] *)
Definition add_one (v : json) : M Z :=
  match as_int v with
  | Some z => mret (z + 1)
  | None => raise TypeError
  end.

(** [v == job_id] for an integer [job_id] *)
Definition eq_int (v : json) (job_id : Z) : bool :=
  match as_int v with
  | Some z => bool_decide (z = job_id)
  | None => false
  end.

(** [v.append(x)], giving the list after the call *)
Definition append (v : json) (x : json) : M json :=
  match v with
  | JList l => mret (JList (l ++ [x]))
  | _ => raise AttributeError
  end.

(** [o[k] = x] on a loaded object *)
Definition setitem (v : json) (k : string) (x : json) : M json :=
  match v with
  | JObj o => mret (JObj (<[k := x]> o))
  | _ => raise TypeError
  end.

(** ** Caller-owned dictionaries *)

(** The contents of the dictionary at [l]. *)
Definition deref (l : loc) : M (gmap string json) :=
  gets (λ w, heap w !!! l).

(** [job[k] = x]: the dictionary at [l] is updated in place. *)
Definition store_key (l : loc) (k : string) (x : json) : M unit :=
  modify (λ w, set_heap (<[l := <[k := x]> (heap w !!! l)]> (heap w)) w).

(** [v[i]] for a list index *)
Definition getitem_idx (v : json) (i : nat) : M json :=
  match v with
  | JList l => match l !! i with
               | Some x => mret x
               | None => raise IndexError
               end
  | _ => raise TypeError
  end.

(** ** Collaborators of the engine *)

(** [threading.Lock.acquire]: a lock that is held blocks the caller. *)
Definition acquire (m : loc) : M unit := λ w,
  if bool_decide (m ∈ held w)
  then (Block, w)
  else (Ret tt, log (EvAcquire m) (set_held (m :: held w) w)).

(** [threading.Lock.release] *)
Definition release (m : loc) (w : World) : World :=
  log (EvRelease m) (set_held (filter (λ x, x ≠ m) (held w)) w).

(** Modelled from the spec: [lock_while_using_file] of
    [libs/resource_access.py], which is not among the sources.  The decorated
    function runs with the lock held for its whole body and the lock is
    released on every exit path; the result or the exception of the body is
    passed on to the caller. *)
Definition lock_while_using_file {A : Type} (mutex : loc) (body : M A) : M A :=
  acquire mutex;; try_finally body (release mutex).

(** Modelled from the spec: [JobDatabaseRead] of [utils/jobdatabase/io.py],
    which is not among the sources, followed by [json.load]: the whole durable
    document is read, and a file that cannot be opened raises [OSError]
    ([FileNotFoundError] and [PermissionError] are [OSError]s).  Text that
    is not JSON, on which [json.load] raises [JSONDecodeError], is left out
    of the model: the world holds the document as loaded. *)
Definition JobDatabaseRead : M json := λ w,
  match disk w with
  | Some doc => (Ret doc, log EvRead w)
  | None => (Raise OSError, log EvRead w)
  end.

(** Modelled from the spec: [JobDatabaseWrite] of [utils/jobdatabase/io.py],
    which is not among the sources, followed by [json.dump]: the whole
    durable document is replaced by [doc]; when the file cannot be opened for
    writing the call raises and the document stays as it was. *)
Definition JobDatabaseWrite (doc : json) : M unit := λ w,
  if writable w
  then (Ret tt, set_disk (Some doc) (log (EvWrite doc) w))
  else (Raise OSError, log (EvWrite doc) w).

(** Modelled from the spec: the loop of [search_job_by_job_id] of
    [utils/jobdatabase/default_algorithm.py], which is not among the sources:
    the records are compared one after the other, from index [idx] on. *)
Fixpoint search_from (storage : list json) (job_id : Z) (idx : nat)
  : M (bool * nat) :=
  match storage with
  | [] => mret (false, 0%nat)
  | job :: rest =>
      v ← getitem job "job_id";
      if eq_int v job_id then mret (true, idx)
      else search_from rest job_id (S idx)
  end.

(** Modelled from the spec: [search_job_by_job_id] of
    [utils/jobdatabase/default_algorithm.py], which is not among the sources:
    a linear search of the collection for a record whose [job_id] equals the
    one asked for, answering [(is_exists, idx)]. *)
Definition search_job_by_job_id (storage : json) (job_id : Z)
  : M (bool * nat) :=
  match storage with
  | JList l => search_from l job_id 0%nat
  | _ => raise TypeError
  end.

(** ** The engine *)

Section Engine.

(** The chain that [get_job_validator_chain()] returns;
    [utils/validator_chains.py] is not among the sources, so the engine is
    stated for any chain. *)
Variable get_job_validator_chain : ValidatorChain.

(** [self.mutex] and [self.validator]; an instance that [__init__] has not
    run on has neither. *)
Definition attributes (self : loc) : M EngineObj := λ w,
  match objects w !! self with
  | Some e => (Ret e, w)
  | None => (Raise AttributeError, w)
  end.

(** [threading.Lock()]: a new lock, not held. *)
Definition Lock : M loc := λ w,
  (Ret (next_id w), set_next_id (S (next_id w)) w).

Definition __new__ : M loc := λ w,
  match jobdatabase_instance w with
  | Some self => (Ret self, w)
  | None =>
      let self := next_id w in
      (Ret self, set_instance (Some self) (set_next_id (S self) w))
  end.

Definition __init__ (self : loc) : M unit :=
  m ← Lock;
  modify (λ w,
    set_objects (<[self := mkEngine m get_job_validator_chain]> (objects w)) w).

(** The call [JobDatabaseEngine()]: [__new__], then [__init__] on the object
    it returned. *)
Definition JobDatabaseEngine : M loc :=
  self ← __new__;
  __init__ self;;
  mret self.

Definition empty_collection : json := JObj {["jobs" := JList []]}.

Definition reset (self : loc) : M unit :=
  JobDatabaseWrite empty_collection.

(** The body of the closure [__save] of [save]. *)
Definition __save (job : loc) : M Z :=
  storage ← JobDatabaseRead;
  jobs ← getitem storage "jobs";
  n ← py_len jobs;
  new_job_id ←
    (if bool_decide (n = 0%nat) then mret 1
     else
       jobs ← getitem storage "jobs";
       last_job ← getitem_last jobs;
       v ← getitem last_job "job_id";
       add_one v);
  store_key job "job_id" (JInt new_job_id);;
  jobs ← getitem storage "jobs";
  d ← deref job;
  jobs ← append jobs (JObj d);
  storage ← setitem storage "jobs" jobs;
  JobDatabaseWrite storage;;
  mret new_job_id.

Definition save (self job : loc) : M (option Z * bool * option exn) :=
  e ← attributes self;
  d ← deref job;
  let '(is_valid, err) := validator e d in
  if negb is_valid || bool_decide (is_Some err)
  then mret (None, false, err)
  else
    new_job_id ← lock_while_using_file (mutex e) (__save job);
    mret (Some new_job_id, true, None).

(** The body of the closure [__update] of [update]: [pass]. *)
Definition __update : M unit := mret tt.

Definition update (self : loc) (job_id : Z) (updated_data : loc) : M unit :=
  e ← attributes self;
  lock_while_using_file (mutex e) __update.

(** The body of the closure [__get_item] of [get_item]. *)
Definition __get_item (job_id : Z) : M (bool * option json) :=
  doc ← JobDatabaseRead;
  storage ← getitem doc "jobs";
  '(is_exists, idx) ← search_job_by_job_id storage job_id;
  if negb is_exists then mret (false, None)
  else
    job ← getitem_idx storage idx;
    mret (true, Some job).

Definition get_item (self : loc) (job_id : Z)
  : M (option json * bool * option exn) :=
  e ← attributes self;
  r ← try_except
        (x ← lock_while_using_file (mutex e) (__get_item job_id);
         mret (inl x))
        (λ err, mret (inr err));
  match r : (bool * option json) + exn with
  | inr err => mret (None, false, Some err)
  | inl (success, res) =>
      if success then mret (res, true, None)
      else mret (None, false,
                 Some (ValueError ("Failed to find id: " +:+ pretty job_id)))
  end.

(** The body of the closure [__remove] of [remove]: [pass]. *)
Definition __remove : M unit := mret tt.

Definition remove (self : loc) (job_id : Z) : M unit :=
  e ← attributes self;
  lock_while_using_file (mutex e) __remove.

End Engine.

(** The world of a fresh process: no engine yet, nothing held, no caller
    dictionaries. *)
Definition fresh_process (d : option json) (wr : bool) : World :=
  mkWorld d wr ∅ [] 0%nat None ∅ [].

(** ** The validator chain *)

(** GraphAnalyzer, TaskSchemaValidator and the validator chain live in
    modules that are not among the sources ([libs/validator.py],
    [utils/validator_chains.py]); what follows is their description in the
    spec. *)
Module GraphAnalyzer.

(** Modelled from the spec: the adjacency structure of a job (GraphAnalyzer
    is not among the sources): for every task-id the ordered sequence of
    task-ids it points to. *)
Definition adjacency : Type := list (string * list string).

(** Modelled from the spec: the task-ids of the graph (GraphAnalyzer is not
    among the sources), the keys of the adjacency structure. *)
Definition nodes (adj : adjacency) : list string := adj.*1.

(** Modelled from the spec: the destinations of the edges that leave [n]
    (GraphAnalyzer is not among the sources). *)
Definition successors (adj : adjacency) (n : string) : list string :=
  concat (snd <$> filter (λ p, p.1 = n) adj).

(** Modelled from the spec: the sources of the edges that reach [n]
    (GraphAnalyzer is not among the sources). *)
Definition predecessors (adj : adjacency) (n : string) : list string :=
  fst <$> filter (λ p, n ∈ p.2) adj.

(** Modelled from the spec: the neighbours of a node in the undirected
    version of the graph (GraphAnalyzer is not among the sources). *)
Definition neighbours (adj : adjacency) (n : string) : list string :=
  successors adj n ++ predecessors adj n.

(** Modelled from the spec: the traversal of [is_single_component]
    (GraphAnalyzer is not among the sources); every one of the [fuel] rounds
    adds the neighbours of the nodes visited so far. *)
Fixpoint traverse (fuel : nat) (adj : adjacency) (visited : list string)
  : list string :=
  match fuel with
  | O => visited
  | S fuel' =>
      traverse fuel' adj
        (list_union visited (concat (neighbours adj <$> visited)))
  end.

(** Modelled from the spec: [is_single_component] of GraphAnalyzer, which is
    not among the sources: a traversal of the undirected graph from an
    arbitrary start node visits every node; the empty graph is a single
    component. *)
Definition is_single_component (adj : adjacency) : bool :=
  match nodes adj with
  | [] => true
  | start :: _ =>
      let visited :=
        traverse (length adj + length (concat adj.*2)) adj [start] in
      forallb (λ n, bool_decide (n ∈ visited)) (nodes adj)
  end.

(** Modelled from the spec: the topological sort of [has_cycle]
    (GraphAnalyzer is not among the sources); every one of the [fuel] rounds
    retires the nodes all of whose successors are retired or have no
    adjacency entry. *)
Fixpoint retire (fuel : nat) (adj : adjacency) (retired : list string)
  : list string :=
  match fuel with
  | O => retired
  | S fuel' =>
      retire fuel' adj
        (list_union retired
           (filter
              (λ n, Forall (λ s, s ∈ retired ∨ s ∉ nodes adj)
                           (successors adj n))
              (nodes adj)))
  end.

(** Modelled from the spec: [has_cycle] of GraphAnalyzer, which is not
    among the sources: a directed cycle exists when the topological sort
    cannot retire every node; a self-loop is a cycle. *)
Definition has_cycle (adj : adjacency) : bool :=
  negb (forallb (λ n, bool_decide (n ∈ retire (length adj) adj []))
                (nodes adj)).

(** Modelled from the spec: [has_duplicate_edge] of GraphAnalyzer, which is
    not among the sources: some source lists the same destination twice. *)
Definition has_duplicate_edge (adj : adjacency) : bool :=
  existsb (λ p, negb (bool_decide (NoDup p.2))) adj.

End GraphAnalyzer.

Module TaskSchemaValidator.

(** Modelled from the spec: the fixed table of TaskSchemaValidator, which is
    not among the sources: [{read: filename, write: filename,
    drop: column_name}]. *)
Definition required_field (task_name : string) : option string :=
  if bool_decide (task_name = "read") then Some "filename"
  else if bool_decide (task_name = "write") then Some "filename"
  else if bool_decide (task_name = "drop") then Some "column_name"
  else None.

(** Modelled from the spec: [validate] of TaskSchemaValidator, which is not
    among the sources: a task kind outside the table fails, and so does a
    bag without the required field, whatever else it holds. *)
Definition validate (task_name : string) (property_bag : gmap string json)
  : bool * option string :=
  match required_field task_name with
  | None => (false, Some "unrecognized task kind")
  | Some field =>
      if bool_decide (is_Some (property_bag !! field)) then (true, None)
      else (false, Some "required field absent")
  end.

End TaskSchemaValidator.

Module ValidatorChains.

(** Modelled from the spec: the contract of a member of the chain
    ([libs/validator.py] is not among the sources): [evaluate(job)] answers
    [(valid, error)]. *)
Definition Validator : Type := gmap string json → bool * option exn.

(** Modelled from the spec: a rejection with its reason (the validators are
    not among the sources). *)
Definition reject (reason : string) : bool * option exn :=
  (false, Some (ValidationError reason)).

(** Modelled from the spec: an ordered sequence of task-ids in a submitted
    job (the validators are not among the sources). *)
Definition task_ids (v : json) : option (list string) :=
  match v with
  | JList l => mapM (λ x, match x with JStr s => Some s | _ => None end) l
  | _ => None
  end.

(** Modelled from the spec: the adjacency structure under the key
    [job_list] of a job (the validators are not among the sources). *)
Definition adjacency_of (job : gmap string json)
  : option GraphAnalyzer.adjacency :=
  match job !! "job_list" with
  | Some (JObj o) =>
      mapM (λ p : string * json, ds ← task_ids p.2; Some (p.1, ds))
           (map_to_list o)
  | _ => None
  end.

(** Modelled from the spec: the property bags under the key [property] of a
    job (the validators are not among the sources). *)
Definition properties_of (job : gmap string json)
  : option (list (string * gmap string json)) :=
  match job !! "property" with
  | Some (JObj o) =>
      mapM (λ p : string * json,
              match p.2 with JObj bag => Some (p.1, bag) | _ => None end)
           (map_to_list o)
  | _ => None
  end.

(** Modelled from the spec: a member of the chain backed by a check of
    GraphAnalyzer (the validators are not among the sources). *)
Definition on_graph (check : GraphAnalyzer.adjacency → bool)
    (reason : string) : Validator := λ job,
  match adjacency_of job with
  | Some adj => if check adj then (true, None) else reject reason
  | None => reject "job_list is not an adjacency mapping"
  end.

(** Modelled from the spec: member (a) of the chain, which is not among the
    sources: the key sets of [job_list] and [property] are equal. *)
Definition same_keys : Validator := λ job,
  match adjacency_of job, properties_of job with
  | Some adj, Some props =>
      if bool_decide (adj.*1 ⊆ props.*1 ∧ props.*1 ⊆ adj.*1) then (true, None)
      else reject "job_list and property name different tasks"
  | _, _ => reject "job_list or property is not a mapping"
  end.

(** Modelled from the spec: member (b) of the chain, which is not among the
    sources: a single weakly-connected component. *)
Definition single_component : Validator :=
  on_graph GraphAnalyzer.is_single_component "more than one graph".

(** Modelled from the spec: member (c) of the chain, which is not among the
    sources: no directed cycle. *)
Definition acyclic : Validator :=
  on_graph (λ adj, negb (GraphAnalyzer.has_cycle adj)) "the graph has a cycle".

(** Modelled from the spec: member (d) of the chain, which is not among the
    sources: no duplicate edge. *)
Definition no_duplicate_edge : Validator :=
  on_graph (λ adj, negb (GraphAnalyzer.has_duplicate_edge adj))
           "an edge is listed twice".

(** Modelled from the spec: the check of one task (the validators are not
    among the sources): its bag names a task kind under [task_name] and
    passes TaskSchemaValidator for that kind. *)
Definition task_ok (bag : gmap string json) : bool * option exn :=
  match bag !! "task_name" with
  | Some (JStr task_name) =>
      match TaskSchemaValidator.validate task_name bag with
      | (true, _) => (true, None)
      | (false, reason) => reject (default "" reason)
      end
  | _ => reject "task without a task_name"
  end.

(** Modelled from the spec: the first failure among the answers for the
    tasks, or success (the validators are not among the sources). *)
Fixpoint first_failure (rs : list (bool * option exn)) : bool * option exn :=
  match rs with
  | [] => (true, None)
  | (true, _) :: rs' => first_failure rs'
  | (false, err) :: _ => (false, err)
  end.

(** Modelled from the spec: member (e) of the chain, which is not among the
    sources: the property bag of every task is correct for its kind. *)
Definition task_properties : Validator := λ job,
  match properties_of job with
  | Some props => first_failure ((λ p, task_ok p.2) <$> props)
  | None => reject "property is not a mapping of property bags"
  end.

(** Modelled from the spec: ValidatorChain of [libs/validator.py], which is
    not among the sources: a chain built from an arbitrary ordered list of
    members asks them in order, stops at the first failure and returns that
    failure's reason; when all members pass it returns success. *)
Fixpoint chain (members : list Validator) : ValidatorChain := λ job,
  match members with
  | [] => (true, None)
  | v :: rest =>
      match v job with
      | (true, _) => chain rest job
      | (false, err) => (false, err)
      end
  end.

(** Modelled from the spec: [get_job_validator_chain] of
    [utils/validator_chains.py], which is not among the sources: the chain
    of the five members in the order of the spec. *)
Definition get_job_validator_chain : ValidatorChain :=
  chain [same_keys; single_component; acyclic; no_duplicate_edge;
         task_properties].

End ValidatorChains.

(** ** The submissions of [test/test_create.py] *)

Module TestCreate.

Definition ids (l : list string) : json := JList (JStr <$> l).

Definition task (task_name field value : string) : json :=
  JObj (<["task_name" := JStr task_name]> (<[field := JStr value]> ∅)).

Definition job (job_list property : list (string * json))
  : gmap string json :=
  <["job_name" := JStr "Job1"]>
    (<["job_list" := JObj (list_to_map job_list)]>
       (<["property" := JObj (list_to_map property)]> ∅)).

Definition no_over_two_graph : gmap string json :=
  job [("R1", ids ["R2"; "W1"]); ("R2", ids ["W2"]); ("W1", ids ["W2"]);
       ("W2", ids []); ("R3", ids ["W3"]); ("W3", ids [])]
      [("R1", task "read" "filename" "init.csv");
       ("R2", task "read" "fielname" "a.csv");
       ("W1", task "write" "filename" "b.csv");
       ("W2", task "write" "filename" "c.csv");
       ("R3", task "read" "filename" "d.csv");
       ("W3", task "read" "filename" "e.csv")].

Definition no_cycle_in_graph : gmap string json :=
  job [("R1", ids ["D"]); ("R2", ids ["D"]); ("W1", ids ["R2"]);
       ("D", ids ["W1"])]
      [("R1", task "read" "filename" "init.csv");
       ("R2", task "read" "fielname" "a.csv");
       ("W1", task "write" "filename" "b.csv");
       ("D", task "drop" "column_name" "column1")].

Definition no_double_of_one_edge : gmap string json :=
  job [("R1", ids ["W1"; "W2"]); ("W1", ids ["D1"]); ("W2", ids ["D1"]);
       ("D1", ids []); ("D2", ids ["W3"; "W4"]); ("W3", ids []);
       ("W4", ids [])]
      [("R1", task "read" "filename" "init.csv");
       ("W1", task "write" "filename" "a.csv");
       ("W2", task "write" "filename" "b.csv");
       ("W3", task "write" "filename" "c.csv");
       ("W4", task "write" "filename" "d.csv");
       ("D1", task "drop" "column_name" "column1");
       ("D2", task "drop" "column_name" "column2")].

Definition property_size_not_match : gmap string json :=
  job [("R1", ids ["R2"; "W1"]); ("R2", ids ["W1"; "W2"]);
       ("W1", ids ["W2"]); ("W2", ids [])]
      [("R1", task "read" "filename" "init.csv");
       ("R2", task "read" "filename" "1.csv");
       ("W1", task "write" "filename" "a.csv");
       ("W3", task "write" "filename" "b.csv")].

Definition property_read_failed : gmap string json :=
  job [("R1", ids ["R2"; "D1"]); ("R2", ids ["D1"; "W2"]);
       ("D1", ids ["W2"]); ("W2", ids [])]
      [("R1", task "read" "column_name" "init.csv");
       ("R2", task "read" "filename" "1.csv");
       ("D1", task "drop" "column_name" "col1");
       ("W2", task "write" "filename" "b.csv")].

Definition property_write_failed : gmap string json :=
  job [("R1", ids ["R2"; "D1"]); ("R2", ids ["D1"; "W2"]);
       ("D1", ids ["W2"]); ("W2", ids [])]
      [("R1", task "read" "filename" "init.csv");
       ("R2", task "read" "filename" "1.csv");
       ("D1", task "drop" "column_name" "col1");
       ("W2", task "write" "column_name" "col1")].

Definition property_drop_failed : gmap string json :=
  job [("R1", ids ["R2"; "D1"]); ("R2", ids ["D1"; "W2"]);
       ("D1", ids ["W2"]); ("W2", ids [])]
      [("R1", task "read" "filename" "init.csv");
       ("R2", task "read" "filename" "1.csv");
       ("D1", task "drop" "filename" "init.csv");
       ("W2", task "write" "filename" "init.csv")].

Definition success : gmap string json :=
  job [("R1", ids ["R2"; "W1"]); ("R2", ids ["W1"; "W2"]);
       ("W1", ids ["W2"]); ("W2", ids [])]
      [("R1", task "read" "filename" "init.csv");
       ("R2", task "read" "filename" "1.csv");
       ("W1", task "write" "filename" "a.csv");
       ("W2", task "write" "filename" "b.csv")].

End TestCreate.

(** ** The accepted scenario *)

(** The adjacency [{R1:[R2,W1], R2:[W1,W2], W1:[W2], W2:[]}]. *)
Definition accepted_job_list : gmap string json :=
  list_to_map
    [("R1", TestCreate.ids ["R2"; "W1"]); ("R2", TestCreate.ids ["W1"; "W2"]);
     ("W1", TestCreate.ids ["W2"]); ("W2", TestCreate.ids [])].

(** One property bag for each of the four tasks. *)
Definition accepted_property (bR1 bR2 bW1 bW2 : gmap string json)
  : gmap string json :=
  list_to_map
    [("R1", JObj bR1); ("R2", JObj bR2); ("W1", JObj bW1); ("W2", JObj bW2)].

(** The bag of a read task or of a write task that carries a [filename]
    property, whatever its value and whatever else the bag holds. *)
Definition file_task (bag : gmap string json) : Prop :=
  (bag !! "task_name" = Some (JStr "read") ∨
   bag !! "task_name" = Some (JStr "write")) ∧
  is_Some (bag !! "filename").

(** * Vocabulary of the properties *)

(** ** Reading the durable document *)

(** The job records of a document, when it has the layout [{"jobs": [...]}]. *)
Definition collection (d : option json) : option (list json) :=
  match d with
  | Some (JObj o) =>
      match o !! "jobs" with
      | Some (JList js) => Some js
      | _ => None
      end
  | _ => None
  end.

(** The integer [job_id] of a record. *)
Definition record_id (r : json) : option Z :=
  match r with
  | JObj o => o !! "job_id" ≫= as_int
  | _ => None
  end.

Definition job_ids (js : list json) : option (list Z) := mapM record_id js.

(** The identifier the next job gets, in the words of the spec: the last
    element's id plus 1, or 1 for the empty collection. *)
Definition next_job_id (js : list json) : option Z :=
  match last js with
  | None => Some 1
  | Some r => (λ z, z + 1) <$> record_id r
  end.

(** The world [__save] leaves behind when it assigns [id] in a document [o]
    whose collection is [js]. *)
Definition saved (job : loc) (id : Z) (o : gmap string json)
    (js : list json) (w : World) : World :=
  let d := <["job_id" := JInt id]> (heap w !!! job) in
  let doc := JObj (<["jobs" := JList (js ++ [JObj d])]> o) in
  set_disk (Some doc)
    (log (EvWrite doc) (set_heap (<[job := d]> (heap w)) (log EvRead w))).

(** The world after [acquire]. *)
Definition locked (m : loc) (w : World) : World :=
  log (EvAcquire m) (set_held (m :: held w) w).

(** The world a successful [save] leaves behind. *)
Definition save_world (m job : loc) (id : Z) (o : gmap string json)
    (js : list json) (w : World) : World :=
  release m (saved job id o js (locked m w)).

(** The record [save] appends for the job at [job]. *)
Definition new_record (job : loc) (id : Z) (w : World) : json :=
  JObj (<["job_id" := JInt id]> (heap w !!! job)).

(** The identifiers 1, 2, ..., n. *)
Definition first_ids (n : nat) : list Z := Z.of_nat <$> seq 1 n.

(** A sequence of successful saves through the instance [self], with the
    identifiers they returned, oldest first.  Between two saves anything may
    happen to the world that leaves the durable document as it is. *)
Inductive saves (self : loc) : World → list Z → World → Prop :=
  | saves_nil w : saves self w [] w
  | saves_snoc w ids w1 w1' job id w2 :
      saves self w ids w1 →
      disk w1' = disk w1 →
      save self job w1' = (Ret (Some id, true, None), w2) →
      saves self w (ids ++ [id]) w2.

(** The events a program adds to the log when run in [w]. *)
Definition events_of {A : Type} (m : M A) (w : World) : list event :=
  drop (length (trace w)) (trace (m w).2).

Definition is_file_event (ev : event) : bool :=
  match ev with
  | EvRead | EvWrite _ => true
  | _ => false
  end.

(** Every access to the document in the log happens while the lock [m] is
    held; [holding] tells whether it is held when the log starts. *)
Fixpoint guarded_by (m : loc) (holding : bool) (t : list event) : bool :=
  match t with
  | [] => true
  | EvAcquire m' :: t' =>
      guarded_by m (if bool_decide (m' = m) then true else holding) t'
  | EvRelease m' :: t' =>
      guarded_by m (if bool_decide (m' = m) then false else holding) t'
  | _ :: t' => holding && guarded_by m holding t'
  end.

(** A program that never blocks and logs nothing but accesses to the
    document. *)
Definition file_only {A : Type} (p : M A) : Prop :=
  ∀ w, (p w).1 ≠ Block ∧
       ∃ evs, trace (p w).2 = trace w ++ evs ∧
              Forall (λ ev, is_file_event ev = true) evs.

(** The log of at most one critical section of the lock [m]: nothing, or an
    acquisition of [m], accesses to the document, and the release of [m]. *)
Definition one_section (m : loc) (evs : list event) : Prop :=
  evs = [] ∨
  ∃ fs, Forall (λ ev, is_file_event ev = true) fs ∧
        evs = EvAcquire m :: fs ++ [EvRelease m].

(** An answer of a validator that carries a reason exactly when it
    rejects. *)
Definition reasoned (r : bool * option exn) : Prop :=
  r = (true, None) ∨ ∃ reason, r = ValidatorChains.reject reason.

(** The record carries the identifier [job_id]. *)
Definition has_id (job_id : Z) (r : json) : bool :=
  match r with
  | JObj o =>
      match o !! "job_id" with
      | Some v => eq_int v job_id
      | None => false
      end
  | _ => false
  end.

(** The record carries some [job_id], as every record [save] wrote does. *)
Definition keyed (r : json) : Prop :=
  ∃ o v, r = JObj o ∧ o !! "job_id" = Some v.

(** The first record of the collection that carries [job_id], with its
    index. *)
Definition first_with_id (job_id : Z) (js : list json) : option (nat * json) :=
  list_find (λ r, has_id job_id r = true) js.

(** The error [get_item] answers for an identifier it does not find. *)
Definition not_found (job_id : Z) : exn :=
  ValueError ("Failed to find id: " +:+ pretty job_id).

(** ** Scenarios *)

Module Scenario.

(** A process in which [JobDatabaseEngine()] was called once, with the
    validator chain of the spec. *)
Definition engine_up (d : option json) (wr : bool)
    (jobs : gmap loc (gmap string json)) : World :=
  (JobDatabaseEngine ValidatorChains.get_job_validator_chain
     (set_heap jobs (fresh_process d wr))).2.

(** The instance is the first object of the process, its lock the second. *)
Definition self : loc := 0%nat.

Definition engine : EngineObj :=
  mkEngine 1%nat ValidatorChains.get_job_validator_chain.

(** Two submissions held by a caller: the accepted job of [test_success] and
    the job of [test_no_cycle_in_graph]. *)
Definition good : loc := 10%nat.
Definition cyclic : loc := 11%nat.

Definition submissions : gmap loc (gmap string json) :=
  <[good := TestCreate.success]> (<[cyclic := TestCreate.no_cycle_in_graph]> ∅).

(** After [reset()]: the empty collection on a writable disk. *)
Definition start : World := engine_up (Some empty_collection) true submissions.

Definition after_one : World := (save self good start).2.
Definition after_two : World := (save self good after_one).2.

(** Job.json is missing. *)
Definition no_document : World := engine_up None true submissions.

(** Job.json cannot be opened for writing. *)
Definition read_only : World :=
  engine_up (Some empty_collection) false submissions.

(** A caller is inside the critical section of the instance. *)
Definition in_critical_section : World := set_held [1%nat] start.

(** [JobDatabaseEngine()] is called once more meanwhile. *)
Definition constructed_again : World :=
  (JobDatabaseEngine ValidatorChains.get_job_validator_chain
     in_critical_section).2.

End Scenario.

(** ** Vocabulary of the further properties *)

(** The identifiers of the collection grow strictly from record to record. *)
Definition increasing (ids : list Z) : Prop :=
  ∀ i j x y, (i < j)%nat → ids !! i = Some x → ids !! j = Some y → x < y.

(** The exception the first lines of [__save] and [__get_item] meet on a
    document they cannot use: [OSError] for a file that cannot be opened,
    [TypeError] for a document that is not an object, [KeyError] for an
    object without the key [jobs]. *)
Definition unusable (d : option json) : option exn :=
  match d with
  | None => Some OSError
  | Some (JObj o) =>
      match o !! "jobs" with
      | None => Some KeyError
      | Some _ => None
      end
  | Some _ => Some TypeError
  end.

(** A program that leaves the document, the callers' dictionaries, the
    instances and the set of held locks as they are. *)
Definition read_only {A : Type} (p : M A) : Prop :=
  ∀ w, disk (p w).2 = disk w ∧ writable (p w).2 = writable w ∧
       heap (p w).2 = heap w ∧ objects (p w).2 = objects w ∧
       held (p w).2 = held w.

(** A program that changes the document, if at all, only on a run that
    returns. *)
Definition writes_on_return {A : Type} (p : M A) : Prop :=
  ∀ w, (∃ a, (p w).1 = Ret a) ∨ disk (p w).2 = disk w.

(** A program whose outcome, and the document it leaves, depend on the
    world through the document alone. *)
Definition document_determined {A : Type} (p : M A) : Prop :=
  ∀ w1 w2, disk w1 = disk w2 →
           (p w1).1 = (p w2).1 ∧ disk (p w1).2 = disk (p w2).2.

(** [n] calls of [JobDatabaseEngine()] in a row, with the instances they
    returned. *)
Fixpoint construct_times (chain : ValidatorChain) (n : nat) : M (list loc) :=
  match n with
  | O => mret []
  | S n' =>
      self ← JobDatabaseEngine chain;
      rest ← construct_times chain n';
      mret (self :: rest)
  end.

(** ** Further scenarios *)

Module Edge.

(** Job.json was edited by hand: its only record has no [job_id]. *)
Definition keyless_last : World :=
  set_disk (Some (JObj {["jobs" := JList [JObj ∅]]})) Scenario.start.

(** A chain that reports an error although it says the job is valid. *)
Definition warning_chain : ValidatorChain :=
  λ _, (true, Some (ValidationError "deprecated field")).

(** A process whose instance was built with [warning_chain]. *)
Definition warned : World :=
  (JobDatabaseEngine warning_chain
     (set_heap Scenario.submissions
        (fresh_process (Some empty_collection) true))).2.

(** After the first save the caller threw its dictionaries away. *)
Definition caller_forgot : World := set_heap ∅ Scenario.after_one.

End Edge.

(** * Properties *)

(** ** Inversion of monadic programs *)

Lemma bind_Ret_inv {A B : Type} (m : M A) (k : A → M B) w b w' :
  (m ≫= k) w = (Ret b, w') →
  ∃ a w1, m w = (Ret a, w1) ∧ k a w1 = (Ret b, w').
Proof.
  unfold mbind, M_bind. destruct (m w) as [[a|e|] w1]; [eauto | done | done].
Qed.

(** A run is known once its outcome is: the world is the one it leaves. *)
Lemma run_fst {A : Type} (r : outcome A * World) (a : outcome A) :
  r.1 = a → r = (a, r.2).
Proof. destruct r. by intros <-. Qed.

Lemma bind_Ret {A B : Type} (m : M A) (k : A → M B) w a w1 :
  m w = (Ret a, w1) → (m ≫= k) w = k a w1.
Proof. unfold mbind, M_bind. by intros ->. Qed.

Lemma lock_Ret_inv {A : Type} (m : loc) (body : M A) w a w' :
  lock_while_using_file m body w = (Ret a, w') →
  (m ∉ held w) ∧
  (∃ w1, body (log (EvAcquire m) (set_held (m :: held w) w)) = (Ret a, w1) ∧
         w' = release m w1).
Proof.
  unfold lock_while_using_file. intros H.
  apply bind_Ret_inv in H as ([] & w0 & Hacq & H).
  unfold acquire in Hacq. case_bool_decide; [done |]. simplify_eq.
  split; [done |]. unfold try_finally in H.
  destruct (body _) as [[a'|e|] w1]; simplify_eq. eauto.
Qed.

Lemma lock_Ret {A : Type} (m : loc) (body : M A) w a w1 :
  m ∉ held w →
  body (log (EvAcquire m) (set_held (m :: held w) w)) = (Ret a, w1) →
  lock_while_using_file m body w = (Ret a, release m w1).
Proof.
  intros Hfree Hbody. unfold lock_while_using_file, acquire, mbind, M_bind.
  rewrite bool_decide_eq_false_2 by done.
  unfold try_finally. by rewrite Hbody.
Qed.

(** What the pure operations answer when they return. *)
Lemma getitem_Ret_inv v k w x w' :
  getitem v k w = (Ret x, w') → (∃ o, v = JObj o ∧ o !! k = Some x) ∧ w' = w.
Proof.
  destruct v as [| | | | |o]; try done. simpl.
  destruct (o !! k) eqn:Hk; [|done]. intros [= <- <-]. eauto.
Qed.

Lemma __save_Ret_inv job w id w' :
  __save job w = (Ret id, w') →
  ∃ o js, disk w = Some (JObj o) ∧ o !! "jobs" = Some (JList js) ∧
          next_job_id js = Some id ∧ writable w = true ∧
          w' = saved job id o js w.
Proof.
  unfold __save. intros H.
  apply bind_Ret_inv in H as (storage & w1 & Hread & H).
  unfold JobDatabaseRead in Hread.
  destruct (disk w) as [doc|] eqn:Hdisk; simplify_eq.
  apply bind_Ret_inv in H as (jobs & w1 & Hjobs & H).
  apply getitem_Ret_inv in Hjobs as [(o & -> & Ho) ->].
  exists o.
  apply bind_Ret_inv in H as (n & w1 & Hlen & H).
  apply bind_Ret_inv in H as (new_job_id & w2 & Hid & H).
  apply bind_Ret_inv in H as ([] & w3 & Hstore & H).
  apply bind_Ret_inv in H as (jobs' & w4 & Hjobs' & H).
  apply getitem_Ret_inv in Hjobs' as [(o' & Heq & Ho') ->].
  simplify_eq.
  apply bind_Ret_inv in H as (d & w4 & Hd & H).
  apply bind_Ret_inv in H as (jobs2 & w5 & Happ & H).
  destruct jobs as [| | | |js|]; try done.
  exists js. unfold py_len, append, mret, M_ret in Hlen, Happ. simplify_eq.
  apply bind_Ret_inv in H as (storage' & w6 & Hset & H).
  unfold setitem, mret, M_ret in Hset, H.
  apply bind_Ret_inv in H as ([] & w7 & Hwrite & H).
  unfold JobDatabaseWrite in Hwrite.
  unfold deref, gets, store_key, modify in *. simplify_eq.
  destruct (writable _) eqn:Hwr; simplify_eq.
  assert (next_job_id js = Some id ∧ w2 = log EvRead w) as [Hnext ->].
  { unfold next_job_id. case_bool_decide as Hn.
    - apply length_zero_iff_nil in Hn as ->.
      unfold mret, M_ret in Hid. by simplify_eq.
    - apply bind_Ret_inv in Hid as (jobs & w1 & Hjobs & Hid).
      apply getitem_Ret_inv in Hjobs as [(o2 & Heq & Ho2) ->]. simplify_eq.
      apply bind_Ret_inv in Hid as (last_job & w1 & Hlast & Hid).
      unfold getitem_last, mret, M_ret in Hlast.
      destruct (last js) as [r|] eqn:Hl; [|done]. simplify_eq.
      apply bind_Ret_inv in Hid as (v & w1 & Hv & Hid).
      apply getitem_Ret_inv in Hv as [(r' & -> & Hr') ->].
      unfold add_one, mret, M_ret in Hid. simpl. rewrite Hr'. simpl.
      destruct (as_int v); by simplify_eq. }
  repeat split; try done. by rewrite lookup_total_insert_eq.
Qed.

Lemma __save_Ret job w id o js :
  disk w = Some (JObj o) → o !! "jobs" = Some (JList js) →
  next_job_id js = Some id → writable w = true →
  __save job w = (Ret id, saved job id o js w).
Proof.
  intros Hdisk Ho Hnext Hwr. unfold __save.
  erewrite bind_Ret; last by (unfold JobDatabaseRead; rewrite Hdisk).
  erewrite bind_Ret; last by (unfold getitem; rewrite Ho).
  erewrite bind_Ret; last done.
  erewrite (bind_Ret _ _ _ id (log EvRead w)); last first.
  { unfold next_job_id in Hnext. case_bool_decide as Hn.
    - apply length_zero_iff_nil in Hn as ->. by simplify_eq/=.
    - erewrite bind_Ret; last by (unfold getitem; rewrite Ho).
      destruct (last js) as [r|] eqn:Hl; last first.
      { by apply last_None in Hl as ->. }
      erewrite bind_Ret; last by (unfold getitem_last; rewrite Hl).
      destruct r as [| | | | |r]; try done. simpl in Hnext.
      destruct (r !! "job_id") as [v|] eqn:Hv; [|done]. simpl in Hnext.
      erewrite bind_Ret; last by (unfold getitem; rewrite Hv).
      unfold add_one. destruct (as_int v); by simplify_eq/=. }
  erewrite bind_Ret; last done.
  erewrite bind_Ret; last by (unfold getitem; rewrite Ho).
  erewrite bind_Ret; last done.
  erewrite bind_Ret; last done.
  erewrite bind_Ret; last done.
  erewrite bind_Ret; last by (unfold JobDatabaseWrite; simpl; rewrite Hwr).
  unfold saved. simpl. by rewrite lookup_total_insert_eq.
Qed.

(** ** What [save] does *)

Lemma save_world_collection m job id o js w :
  collection (disk (save_world m job id o js w))
  = Some (js ++ [new_record job id w]).
Proof. simpl. by rewrite lookup_insert_eq. Qed.

Lemma save_world_heap m job id o js w :
  heap (save_world m job id o js w)
  = <[job := <["job_id" := JInt id]> (heap w !!! job)]> (heap w).
Proof. done. Qed.

Lemma collection_Some d js :
  collection d = Some js ↔
  ∃ o, d = Some (JObj o) ∧ o !! "jobs" = Some (JList js).
Proof.
  split.
  - destruct d as [[| | | | |o]|]; try done. simpl.
    destruct (o !! "jobs") as [[| | | |js'|]|] eqn:Ho; try done.
    intros [= ->]. eauto.
  - intros (o & -> & Ho). simpl. by rewrite Ho.
Qed.

(** Every way [save] can return. *)
Lemma save_Ret_inv self job w r w' :
  save self job w = (Ret r, w') →
  ∃ e, objects w !! self = Some e ∧
    (((validator e (heap w !!! job)).1 = false ∨
      is_Some (validator e (heap w !!! job)).2) ∧
     r = (None, false, (validator e (heap w !!! job)).2) ∧ w' = w
     ∨
     validator e (heap w !!! job) = (true, None) ∧ (mutex e ∉ held w) ∧
     writable w = true ∧
     ∃ o js id, disk w = Some (JObj o) ∧ o !! "jobs" = Some (JList js) ∧
       next_job_id js = Some id ∧ r = (Some id, true, None) ∧
       w' = save_world (mutex e) job id o js w).
Proof.
  unfold save. intros H.
  apply bind_Ret_inv in H as (e & w1 & He & H).
  unfold attributes in He.
  destruct (objects w !! self) as [e'|] eqn:Hobj; [|done].
  injection He as -> <-.
  exists e. split; [done |].
  apply bind_Ret_inv in H as (d & w2 & Hd & H).
  unfold deref, gets in Hd. injection Hd as <- <-.
  destruct (validator e (heap w !!! job)) as [is_valid err] eqn:Hv. simpl.
  destruct (negb is_valid || bool_decide (is_Some err)) eqn:Hrej.
  - left. unfold mret, M_ret in H. injection H as <- <-. split; [|done].
    apply orb_true_iff in Hrej as [Hrej|Hrej].
    + left. by destruct is_valid.
    + right. by apply bool_decide_eq_true_1 in Hrej.
  - right. apply orb_false_iff in Hrej as [Hvalid Herr].
    apply negb_false_iff in Hvalid as ->.
    apply bool_decide_eq_false_1 in Herr.
    destruct err as [x|]; [by destruct Herr; eauto |].
    split; [done |].
    apply bind_Ret_inv in H as (id & w3 & Hlock & H).
    unfold mret, M_ret in H. injection H as <- <-.
    apply lock_Ret_inv in Hlock as (Hfree & w4 & Hsave & ->).
    apply __save_Ret_inv in Hsave as (o & js & Hdisk & Ho & Hnext & Hwr & ->).
    split; [done |]. split; [done |]. by exists o, js, id.
Qed.

(** [save] returns the next identifier whenever the job is valid, the lock
    is free and the document is a writable collection. *)
Lemma save_Ret self job w e o js id :
  objects w !! self = Some e →
  validator e (heap w !!! job) = (true, None) →
  mutex e ∉ held w → writable w = true →
  disk w = Some (JObj o) → o !! "jobs" = Some (JList js) →
  next_job_id js = Some id →
  save self job w
  = (Ret (Some id, true, None), save_world (mutex e) job id o js w).
Proof.
  intros Hobj Hv Hfree Hwr Hdisk Ho Hnext. unfold save.
  erewrite bind_Ret; last by (unfold attributes; rewrite Hobj).
  erewrite bind_Ret; last done.
  rewrite Hv. simpl.
  erewrite bind_Ret; [done |].
  apply lock_Ret; [done |]. by apply __save_Ret.
Qed.

(** A rejected job leaves the world as it was. *)
Lemma save_rejected self job w e is_valid err :
  objects w !! self = Some e →
  validator e (heap w !!! job) = (is_valid, err) →
  is_valid = false ∨ is_Some err →
  save self job w = (Ret (None, false, err), w).
Proof.
  intros Hobj Hv Hrej. unfold save.
  erewrite bind_Ret; last by (unfold attributes; rewrite Hobj).
  erewrite bind_Ret; last done.
  rewrite Hv.
  destruct Hrej as [-> | [x ->]]; [done |]. by destruct is_valid.
Qed.

(** ** Identifier sequencing *)

Lemma first_ids_S n : first_ids (S n) = first_ids n ++ [Z.of_nat (S n)].
Proof. unfold first_ids. by rewrite seq_S, fmap_app. Qed.

Lemma first_ids_bound n : Forall (λ i, i ≤ Z.of_nat n) (first_ids n).
Proof.
  unfold first_ids. apply Forall_fmap, Forall_forall. intros i Hi.
  apply elem_of_seq in Hi. simpl. lia.
Qed.

Lemma record_id_new_record job id w : record_id (new_record job id w) = Some id.
Proof. unfold new_record, record_id. by rewrite lookup_insert_eq. Qed.

Lemma job_ids_snoc js ids r id :
  job_ids js = Some ids → record_id r = Some id →
  job_ids (js ++ [r]) = Some (ids ++ [id]).
Proof.
  unfold job_ids. rewrite !mapM_Some. intros Hjs Hr.
  apply Forall2_app; [done |]. by constructor.
Qed.

Lemma job_ids_last js ids r :
  job_ids js = Some ids → last js = Some r →
  ∃ id, last ids = Some id ∧ record_id r = Some id.
Proof.
  unfold job_ids. rewrite mapM_Some. intros Hjs Hr.
  apply Forall2_last in Hjs. rewrite Hr in Hjs.
  inversion Hjs as [? id Hid|]; subst. eauto.
Qed.

Lemma next_job_id_first_ids js n :
  job_ids js = Some (first_ids n) → next_job_id js = Some (Z.of_nat (S n)).
Proof.
  intros Hjs. unfold next_job_id.
  destruct (last js) as [r|] eqn:Hr.
  - destruct (job_ids_last _ _ _ Hjs Hr) as (id & Hlast & ->).
    destruct n as [|n]; [done |].
    rewrite first_ids_S, last_snoc in Hlast. injection Hlast as <-.
    simpl. f_equal. lia.
  - apply last_None in Hr as ->.
    unfold job_ids in Hjs. apply mapM_Some, Forall2_nil_inv_l in Hjs.
    destruct n as [|n]; [done |].
    rewrite first_ids_S in Hjs. by destruct (first_ids n).
Qed.

Lemma saves_first_ids self w ids w' :
  collection (disk w) = Some [] → saves self w ids w' →
  ∃ js, collection (disk w') = Some js ∧ job_ids js = Some ids ∧
        ids = first_ids (length ids).
Proof.
  intros Hempty Hsaves.
  induction Hsaves as [w|w ids w1 w1' job id w2 _ IH Hdisk Hsave].
  - by exists [].
  - destruct (IH Hempty) as (js & Hjs & Hids & Hseq).
    apply save_Ret_inv in Hsave as (e & _ & [(_ & [=] & _)|Hok]).
    destruct Hok as (_ & _ & _ & o & js' & id' & Hdoc & Ho & Hnext & [= <-] & ->).
    assert (js' = js) as ->.
    { rewrite <- Hdisk in Hjs. apply collection_Some in Hjs as (o' & Ho' & Hjs).
      by simplify_eq. }
    rewrite Hseq in Hids.
    rewrite (next_job_id_first_ids _ _ Hids) in Hnext. injection Hnext as <-.
    rewrite <- Hseq in Hids.
    exists (js ++ [new_record job (Z.of_nat (S (length ids))) w1']).
    split; [apply save_world_collection |].
    split; [apply job_ids_snoc; [done | apply record_id_new_record] |].
    rewrite length_app, Nat.add_1_r, first_ids_S. by rewrite <- Hseq.
Qed.

(** C1: [save] assigns the last element's [job_id] plus 1, or 1 when the
    collection is empty, and appends the job under that identifier; so the
    identifiers of any sequence of successful saves that starts from the
    empty collection are 1, 2, ..., N in order, they are the identifiers of
    the persisted records in order, none exceeds N, and the last record holds
    N. *)
Theorem save_assigns_consecutive_ids :
  (∀ self job w id w',
     save self job w = (Ret (Some id, true, None), w') →
     ∃ js, collection (disk w) = Some js ∧ next_job_id js = Some id ∧
           collection (disk w') = Some (js ++ [new_record job id w])) ∧
  (∀ self w ids w',
     collection (disk w) = Some [] → saves self w ids w' →
     ids = first_ids (length ids) ∧
     ∃ js, collection (disk w') = Some js ∧ job_ids js = Some ids ∧
           Forall (λ i, i ≤ Z.of_nat (length ids)) ids ∧
           ∀ r, last js = Some r →
                record_id r = Some (Z.of_nat (length ids))).
Proof.
  split.
  - intros self job w id w' Hsave.
    apply save_Ret_inv in Hsave as (e & _ & [(_ & [=] & _)|Hok]).
    destruct Hok as (_ & _ & _ & o & js & id' & Hdoc & Ho & Hnext & [= <-] & ->).
    exists js. split; [apply collection_Some; eauto |].
    split; [done | apply save_world_collection].
  - intros self w ids w' Hempty Hsaves.
    destruct (saves_first_ids _ _ _ _ Hempty Hsaves) as (js & Hjs & Hids & Hseq).
    split; [done |]. exists js. split; [done |]. split; [done |]. split.
    + pose proof (first_ids_bound (length ids)) as Hbound.
      by rewrite <- Hseq in Hbound.
    + intros r Hr.
      destruct (job_ids_last _ _ _ Hids Hr) as (id & Hlast & ->).
      rewrite Hseq in Hlast. destruct (length ids) as [|n]; [done |].
      rewrite first_ids_S, last_snoc in Hlast. by injection Hlast as <-.
Qed.

(** The first two submissions of the accepted job after a reset. *)
Lemma scenario_first_save :
  save Scenario.self Scenario.good Scenario.start
  = (Ret (Some 1, true, None), Scenario.after_one).
Proof. unfold Scenario.after_one. apply run_fst. vm_compute. reflexivity. Qed.

Lemma scenario_second_save :
  save Scenario.self Scenario.good Scenario.after_one
  = (Ret (Some 2, true, None), Scenario.after_two).
Proof. unfold Scenario.after_two. apply run_fst. vm_compute. reflexivity. Qed.

Lemma scenario_start_empty : collection (disk Scenario.start) = Some [].
Proof. vm_compute. reflexivity. Qed.

Lemma scenario_two_saves :
  saves Scenario.self Scenario.start [1; 2] Scenario.after_two.
Proof.
  apply (saves_snoc _ _ [1] Scenario.after_one Scenario.after_one
           Scenario.good 2 Scenario.after_two);
    [|reflexivity|exact scenario_second_save].
  apply (saves_snoc _ _ [] Scenario.start Scenario.start Scenario.good 1
           Scenario.after_one);
    [apply saves_nil|reflexivity|exact scenario_first_save].
Qed.

Lemma save_assigns_consecutive_ids_witness :
  (save Scenario.self Scenario.good Scenario.after_one
     = (Ret (Some 2, true, None), Scenario.after_two) ∧
   collection (disk Scenario.start) = Some [] ∧
   saves Scenario.self Scenario.start [1; 2] Scenario.after_two) ∧
  (∃ js, collection (disk Scenario.after_one) = Some js ∧
         next_job_id js = Some 2 ∧
         collection (disk Scenario.after_two)
         = Some (js ++ [new_record Scenario.good 2 Scenario.after_one])) ∧
  ([1; 2] = first_ids (length [1; 2]) ∧
   ∃ js, collection (disk Scenario.after_two) = Some js ∧
         job_ids js = Some [1; 2] ∧
         Forall (λ i, i ≤ Z.of_nat (length [1; 2])) [1; 2] ∧
         ∀ r, last js = Some r →
              record_id r = Some (Z.of_nat (length [1; 2]))).
Proof.
  split; [|split].
  - exact (conj scenario_second_save
             (conj scenario_start_empty scenario_two_saves)).
  - exact (proj1 save_assigns_consecutive_ids _ _ _ _ _ scenario_second_save).
  - exact (proj2 save_assigns_consecutive_ids _ _ _ _
             scenario_start_empty scenario_two_saves).
Defined.

Lemma scenario_engine :
  objects Scenario.start !! Scenario.self = Some Scenario.engine.
Proof. reflexivity. Qed.

(** ** Rejected jobs *)

(** C2: when the validator chain rejects the job, [save] returns
    [(None, False, err)] with the chain's error and the world is the one it
    started in: no identifier is bound, the document is neither read nor
    written, and the log of file events has not grown. *)
Theorem save_rejected_job_leaves_storage self job w e err :
  objects w !! self = Some e →
  validator e (heap w !!! job) = (false, err) →
  save self job w = (Ret (None, false, err), w) ∧
  disk (save self job w).2 = disk w ∧
  events_of (save self job) w = [].
Proof.
  intros Hobj Hv.
  pose proof (save_rejected self job w e false err Hobj Hv (or_introl eq_refl))
    as Hsave.
  rewrite Hsave. split; [done |]. split; [done |].
  unfold events_of. rewrite Hsave. simpl. by rewrite drop_all.
Qed.

Lemma save_rejected_job_leaves_storage_witness :
  objects Scenario.start !! Scenario.self = Some Scenario.engine ∧
  validator Scenario.engine (heap Scenario.start !!! Scenario.cyclic)
  = (false, Some (ValidationError "the graph has a cycle")) ∧
  (save Scenario.self Scenario.cyclic Scenario.start
   = (Ret (None, false, Some (ValidationError "the graph has a cycle")),
      Scenario.start) ∧
   disk (save Scenario.self Scenario.cyclic Scenario.start).2
   = disk Scenario.start ∧
   events_of (save Scenario.self Scenario.cyclic) Scenario.start = []).
Proof.
  assert (validator Scenario.engine (heap Scenario.start !!! Scenario.cyclic)
          = (false, Some (ValidationError "the graph has a cycle"))) as Hv
    by (vm_compute; reflexivity).
  split; [exact scenario_engine |]. split; [exact Hv |].
  exact (save_rejected_job_leaves_storage _ _ _ _ _ scenario_engine Hv).
Defined.

(** ** The caller's job *)

(** C9: when the job passes validation and [save] returns, the dictionary
    the caller passed holds the assigned identifier under [job_id]: the
    argument is changed in place, its other keys and the other dictionaries
    of the caller stay as they were. *)
Theorem save_binds_job_id_in_place self job w e r w' :
  objects w !! self = Some e →
  validator e (heap w !!! job) = (true, None) →
  save self job w = (Ret r, w') →
  ∃ id, r = (Some id, true, None) ∧
        heap w' !! job = Some (<["job_id" := JInt id]> (heap w !!! job)) ∧
        (heap w' !!! job) !! "job_id" = Some (JInt id) ∧
        (∀ k, k ≠ "job_id" → (heap w' !!! job) !! k = (heap w !!! job) !! k) ∧
        (∀ l, l ≠ job → heap w' !! l = heap w !! l).
Proof.
  intros Hobj Hv Hsave.
  apply save_Ret_inv in Hsave as (e' & Hobj' & Hcases).
  assert (e' = e) as -> by congruence.
  destruct Hcases as [(Hrej & _)|Hok].
  { rewrite Hv in Hrej. simpl in Hrej. by destruct Hrej as [?|[? ?]]. }
  destruct Hok as (_ & _ & _ & o & js & id & _ & _ & _ & -> & ->).
  exists id. rewrite save_world_heap. split; [done |].
  split; [apply lookup_insert_eq |].
  rewrite lookup_total_insert_eq.
  split; [apply lookup_insert_eq |].
  split; [intros k Hk; by apply lookup_insert_ne |].
  intros l Hl. by apply lookup_insert_ne.
Qed.

Lemma save_binds_job_id_in_place_witness :
  objects Scenario.start !! Scenario.self = Some Scenario.engine ∧
  validator Scenario.engine (heap Scenario.start !!! Scenario.good)
  = (true, None) ∧
  save Scenario.self Scenario.good Scenario.start
  = (Ret (Some 1, true, None), Scenario.after_one) ∧
  ∃ id, (Some 1, true, None) = (Some id, true, @None exn) ∧
        heap Scenario.after_one !! Scenario.good
        = Some (<["job_id" := JInt id]> (heap Scenario.start !!! Scenario.good)) ∧
        (heap Scenario.after_one !!! Scenario.good) !! "job_id"
        = Some (JInt id) ∧
        (∀ k, k ≠ "job_id" →
              (heap Scenario.after_one !!! Scenario.good) !! k
              = (heap Scenario.start !!! Scenario.good) !! k) ∧
        (∀ l, l ≠ Scenario.good →
              heap Scenario.after_one !! l = heap Scenario.start !! l).
Proof.
  assert (validator Scenario.engine (heap Scenario.start !!! Scenario.good)
          = (true, None)) as Hv by (vm_compute; reflexivity).
  split; [exact scenario_engine |]. split; [exact Hv |].
  split; [exact scenario_first_save |].
  exact (save_binds_job_id_in_place _ _ _ _ _ _
           scenario_engine Hv scenario_first_save).
Defined.

(** ** The operations without a body *)

Lemma locked_body_pass_run self w :
  (e ← attributes self; lock_while_using_file (mutex e) (mret tt)) w
  = match objects w !! self with
    | None => (Raise AttributeError, w)
    | Some e =>
        if bool_decide (mutex e ∈ held w) then (Block, w)
        else (Ret tt, release (mutex e) (locked (mutex e) w))
    end.
Proof.
  unfold mbind, M_bind, attributes, lock_while_using_file, acquire.
  destruct (objects w !! self) as [e|]; [|done].
  unfold mbind, M_bind. by case_bool_decide.
Qed.

Lemma filter_ne_cons_fresh (m : loc) (l : list loc) :
  m ∉ l → filter (λ x, x ≠ m) (m :: l) = l.
Proof.
  intros Hm. rewrite filter_cons_False by naive_solver.
  induction l as [|x l IH]; [done |].
  apply not_elem_of_cons in Hm as [Hx Hl].
  rewrite filter_cons_True by done. by rewrite IH.
Qed.

Lemma locked_body_pass_frame self w :
  let r := (e ← attributes self; lock_while_using_file (mutex e) (mret tt)) w in
  disk r.2 = disk w ∧ heap r.2 = heap w ∧ held r.2 = held w ∧
  Forall (λ ev, is_file_event ev = false)
         (drop (length (trace w)) (trace r.2)).
Proof.
  simpl. rewrite locked_body_pass_run.
  destruct (objects w !! self) as [e|]; simpl; last by rewrite drop_all.
  case_bool_decide as Hheld; simpl; first by rewrite drop_all.
  split; [done |]. split; [done |].
  split; [by apply filter_ne_cons_fresh |].
  rewrite <- app_assoc, drop_app_length. by repeat constructor.
Qed.

(** C7: [update] and [remove] leave the persisted collection, the
    dictionaries of the callers and the set of held locks as they were and
    make no access to the document; on a constructed instance whose lock is
    free they return [None]. *)
Theorem update_and_remove_are_no_ops self job_id updated_data w :
  (disk (update self job_id updated_data w).2 = disk w ∧
   heap (update self job_id updated_data w).2 = heap w ∧
   held (update self job_id updated_data w).2 = held w ∧
   Forall (λ ev, is_file_event ev = false)
          (events_of (update self job_id updated_data) w)) ∧
  (disk (remove self job_id w).2 = disk w ∧
   heap (remove self job_id w).2 = heap w ∧
   held (remove self job_id w).2 = held w ∧
   Forall (λ ev, is_file_event ev = false)
          (events_of (remove self job_id) w)) ∧
  (∀ e, objects w !! self = Some e → mutex e ∉ held w →
        (update self job_id updated_data w).1 = Ret tt ∧
        (remove self job_id w).1 = Ret tt).
Proof.
  split; [apply locked_body_pass_frame |].
  split; [apply locked_body_pass_frame |].
  intros e Hobj Hfree. unfold update, remove, __update, __remove.
  rewrite locked_body_pass_run, Hobj.
  by rewrite bool_decide_eq_false_2.
Qed.

Lemma update_and_remove_are_no_ops_witness :
  objects Scenario.after_two !! Scenario.self = Some Scenario.engine ∧
  (mutex Scenario.engine ∉ held Scenario.after_two) ∧
  (update Scenario.self 1 Scenario.good Scenario.after_two).1 = Ret tt ∧
  (remove Scenario.self 1 Scenario.after_two).1 = Ret tt.
Proof.
  assert (objects Scenario.after_two !! Scenario.self = Some Scenario.engine)
    as Hobj by reflexivity.
  assert (mutex Scenario.engine ∉ held Scenario.after_two) as Hfree
    by (vm_compute; apply not_elem_of_nil).
  split; [exact Hobj |]. split; [exact Hfree |].
  exact (proj2 (proj2 (update_and_remove_are_no_ops
                         Scenario.self 1 Scenario.good Scenario.after_two))
           _ Hobj Hfree).
Defined.

(** ** Storage failures *)

(** [get_item] hands every exception of its critical section back as a
    result. *)
Lemma get_item_never_raises self job_id w e err :
  objects w !! self = Some e → (get_item self job_id w).1 ≠ Raise err.
Proof.
  intros Hobj. unfold get_item.
  erewrite bind_Ret; last by (unfold attributes; rewrite Hobj).
  unfold mbind at 1, M_bind at 1.
  destruct (try_except _ _ w) as [[r|x|] w1] eqn:Htry.
  - by destruct r as [[[] res]|x].
  - unfold try_except in Htry.
    by repeat case_match.
  - done.
Qed.

(** C3: with Job.json missing, [save] of an accepted job lets the exception
    of its critical section escape, where [get_item] on the same world
    returns it as [(None, False, err)]; [reset] on a file that cannot be
    written raises as well. *)
Theorem save_lets_storage_failure_escape :
  (save Scenario.self Scenario.good Scenario.no_document).1 = Raise OSError ∧
  (get_item Scenario.self 1 Scenario.no_document).1
  = Ret (None, false, Some OSError) ∧
  (reset Scenario.self Scenario.read_only).1 = Raise OSError.
Proof. repeat split; vm_compute; reflexivity. Qed.

(** C10: with a Job.json that cannot be opened for writing, [save] of an
    accepted job returns no triple at all: it raises, after binding the
    identifier in the caller's dictionary, with the lock released and the
    document as it was. *)
Theorem save_raises_instead_of_returning :
  (save Scenario.self Scenario.good Scenario.read_only).1 = Raise OSError ∧
  (heap (save Scenario.self Scenario.good Scenario.read_only).2
     !!! Scenario.good) !! "job_id" = Some (JInt 1) ∧
  held (save Scenario.self Scenario.good Scenario.read_only).2 = [] ∧
  disk (save Scenario.self Scenario.good Scenario.read_only).2
  = Some empty_collection.
Proof. repeat split; vm_compute; reflexivity. Qed.

(** When [save] does return, the triple has one of the two shapes. *)
Lemma save_result_shape self job w r w' :
  save self job w = (Ret r, w') →
  (∃ id, r = (Some id, true, None)) ∨ (∃ err, r = (None, false, err)).
Proof.
  intros Hsave. apply save_Ret_inv in Hsave as (e & _ & [(_ & -> & _)|Hok]).
  - right. eauto.
  - destruct Hok as (_ & _ & _ & o & js & id & _ & _ & _ & -> & _).
    left. eauto.
Qed.

(** ** The lock discipline *)

Lemma file_only_pure {A : Type} (p : M A) :
  (∀ w, (p w).1 ≠ Block ∧ (p w).2 = w) → file_only p.
Proof.
  intros Hp w. destruct (Hp w) as [Hb ->]. split; [done |].
  exists []. by rewrite app_nil_r.
Qed.

Lemma file_only_ret {A : Type} (a : A) : file_only (mret a).
Proof. by apply file_only_pure. Qed.

Lemma file_only_raise {A : Type} (e : exn) : file_only (raise (A := A) e).
Proof. by apply file_only_pure. Qed.

Lemma file_only_bind {A B : Type} (p : M A) (k : A → M B) :
  file_only p → (∀ a, file_only (k a)) → file_only (p ≫= k).
Proof.
  intros Hp Hk w. destruct (Hp w) as (Hb & evs & Htr & Hevs).
  unfold mbind, M_bind. destruct (p w) as [[a|e|] w1]; simpl in *.
  - destruct (Hk a w1) as (Hb' & evs' & Htr' & Hevs').
    split; [done |].
    exists (evs ++ evs'). rewrite Htr', Htr, app_assoc.
    split; [done |]. by apply Forall_app.
  - split; [done |]. eauto.
  - done.
Qed.

Lemma file_only_JobDatabaseRead : file_only JobDatabaseRead.
Proof.
  intros w. unfold JobDatabaseRead.
  destruct (disk w); (split; [done |]); exists [EvRead];
    by repeat constructor.
Qed.

Lemma file_only_JobDatabaseWrite doc : file_only (JobDatabaseWrite doc).
Proof.
  intros w. unfold JobDatabaseWrite.
  destruct (writable w); (split; [done |]); exists [EvWrite doc];
    by repeat constructor.
Qed.

Lemma file_only_getitem v k : file_only (getitem v k).
Proof.
  apply file_only_pure. intros w. unfold getitem.
  by repeat case_match.
Qed.

Lemma file_only_search_from js job_id idx :
  file_only (search_from js job_id idx).
Proof.
  revert idx. induction js as [|r js IH]; intros idx; simpl.
  - apply file_only_ret.
  - apply file_only_bind; [apply file_only_getitem |].
    intros v. destruct (eq_int v job_id); [apply file_only_ret | apply IH].
Qed.

Lemma file_only___save job : file_only (__save job).
Proof.
  unfold __save.
  apply file_only_bind; [apply file_only_JobDatabaseRead | intros storage].
  apply file_only_bind; [apply file_only_getitem | intros jobs].
  apply file_only_bind.
  { apply file_only_pure. intros w. by destruct jobs. }
  intros n. apply file_only_bind.
  { case_bool_decide; [apply file_only_ret |].
    apply file_only_bind; [apply file_only_getitem | intros jobs'].
    apply file_only_bind.
    { apply file_only_pure. intros w. unfold getitem_last.
      by repeat case_match. }
    intros last_job.
    apply file_only_bind; [apply file_only_getitem | intros v].
    apply file_only_pure. intros w. unfold add_one. by case_match. }
  intros new_job_id.
  apply file_only_bind; [| intros []].
  { intros w. split; [done |]. exists []. by rewrite app_nil_r. }
  apply file_only_bind; [apply file_only_getitem | intros jobs'].
  apply file_only_bind; [by apply file_only_pure | intros d].
  apply file_only_bind.
  { apply file_only_pure. intros w. by destruct jobs'. }
  intros jobs''. apply file_only_bind.
  { apply file_only_pure. intros w. by destruct storage. }
  intros storage'.
  apply file_only_bind; [apply file_only_JobDatabaseWrite | intros []].
  apply file_only_ret.
Qed.

Lemma file_only___get_item job_id : file_only (__get_item job_id).
Proof.
  unfold __get_item.
  apply file_only_bind; [apply file_only_JobDatabaseRead | intros doc].
  apply file_only_bind; [apply file_only_getitem | intros storage].
  apply file_only_bind.
  { unfold search_job_by_job_id.
    destruct storage; try apply file_only_raise.
    apply file_only_search_from. }
  intros [is_exists idx]. destruct is_exists; simpl; [|apply file_only_ret].
  apply file_only_bind; [|intros; apply file_only_ret].
  apply file_only_pure. intros w. unfold getitem_idx.
  by repeat case_match.
Qed.

(** A decorated closure logs at most one critical section of its lock. *)
Lemma lock_one_section {A : Type} (m : loc) (body : M A) w :
  file_only body →
  ∃ evs, trace (lock_while_using_file m body w).2 = trace w ++ evs ∧
         one_section m evs.
Proof.
  intros Hbody. unfold lock_while_using_file, mbind, M_bind, acquire.
  case_bool_decide.
  { exists []. rewrite app_nil_r. split; [done | by left]. }
  destruct (Hbody (log (EvAcquire m) (set_held (m :: held w) w)))
    as (Hb & fs & Htr & Hfs).
  unfold try_finally.
  destruct (body _) as [[a|e|] w1]; simpl in *; [| |done];
    (exists (EvAcquire m :: fs ++ [EvRelease m]);
     rewrite Htr, <- !app_assoc; split; [done |]; right; eauto).
Qed.

Lemma one_section_guarded m evs :
  one_section m evs → guarded_by m false evs = true.
Proof.
  intros [-> | (fs & Hfs & ->)]; [done |].
  simpl. rewrite bool_decide_eq_true_2 by done.
  induction Hfs as [|ev fs Hev _ IH]; simpl; [done |].
  by destruct ev.
Qed.

Lemma events_of_app {A : Type} (p : M A) w evs :
  trace (p w).2 = trace w ++ evs → events_of p w = evs.
Proof. unfold events_of. intros ->. apply drop_app_length. Qed.

(** [save], [get_item], [update] and [remove] reach the document only
    inside a critical section of the mutex of the instance. *)
Lemma save_one_section self job w e :
  objects w !! self = Some e →
  one_section (mutex e) (events_of (save self job) w).
Proof.
  intros Hobj. unfold events_of, save.
  erewrite bind_Ret; last by (unfold attributes; rewrite Hobj).
  erewrite bind_Ret; last done.
  destruct (validator e _) as [is_valid err].
  destruct (negb is_valid || _).
  { left. simpl. apply drop_all. }
  destruct (lock_one_section (mutex e) (__save job) w (file_only___save job))
    as (evs & Htr & Hevs).
  unfold mbind, M_bind.
  destruct (lock_while_using_file _ _ w) as [[id|x|] w1]; simpl in *;
    by rewrite Htr, drop_app_length.
Qed.

Lemma get_item_one_section self job_id w e :
  objects w !! self = Some e →
  one_section (mutex e) (events_of (get_item self job_id) w).
Proof.
  intros Hobj. unfold events_of, get_item.
  erewrite bind_Ret; last by (unfold attributes; rewrite Hobj).
  destruct (lock_one_section (mutex e) (__get_item job_id) w
              (file_only___get_item job_id)) as (evs & Htr & Hevs).
  unfold try_except, mbind, M_bind.
  destruct (lock_while_using_file _ _ w) as [[[[] res]|x|] w1]; simpl in *;
    by rewrite Htr, drop_app_length.
Qed.

(** C4: [reset] replaces the document without acquiring any lock: the only
    event it logs is the write, no lock is held around it, and so the write
    is guarded by no mutex at all. *)
Theorem reset_writes_outside_the_lock self w :
  events_of (reset self) w = [EvWrite empty_collection] ∧
  held (reset self w).2 = held w ∧
  ∀ m, guarded_by m false (events_of (reset self) w) = false.
Proof.
  assert (events_of (reset self) w = [EvWrite empty_collection]) as Hev.
  { apply events_of_app. unfold reset, JobDatabaseWrite.
    by destruct (writable w). }
  rewrite Hev. split; [done |]. split; [|done].
  unfold reset, JobDatabaseWrite. by destruct (writable w).
Qed.

(** The other operations keep the discipline. *)
Lemma locked_operations_guarded self w e job job_id updated_data :
  objects w !! self = Some e →
  guarded_by (mutex e) false (events_of (save self job) w) = true ∧
  guarded_by (mutex e) false (events_of (get_item self job_id) w) = true ∧
  guarded_by (mutex e) false
    (events_of (update self job_id updated_data) w) = true ∧
  guarded_by (mutex e) false (events_of (remove self job_id) w) = true.
Proof.
  intros Hobj.
  split; [by eapply one_section_guarded, save_one_section |].
  split; [by eapply one_section_guarded, get_item_one_section |].
  assert (∀ w', (e ← attributes self;
                 lock_while_using_file (mutex e) (mret tt)) w = w' →
          guarded_by (mutex e) false
            (drop (length (trace w)) (trace w'.2)) = true) as Hpass.
  { intros w' <-. rewrite locked_body_pass_run, Hobj.
    case_bool_decide; simpl; [by rewrite drop_all |].
    rewrite <- app_assoc, drop_app_length.
    apply one_section_guarded. right. by exists []. }
  split; by apply Hpass.
Qed.

(** ** The singleton *)

(** What a construction does: [__new__] allocates only when the class has
    no instance yet, [__init__] allocates a lock every time. *)
Lemma JobDatabaseEngine_run chain w :
  JobDatabaseEngine chain w
  = match jobdatabase_instance w with
    | Some self =>
        (Ret self,
         set_objects (<[self := mkEngine (next_id w) chain]> (objects w))
           (set_next_id (S (next_id w)) w))
    | None =>
        (Ret (next_id w),
         set_objects
           (<[next_id w := mkEngine (S (next_id w)) chain]> (objects w))
           (set_next_id (S (S (next_id w)))
              (set_instance (Some (next_id w)) w)))
    end.
Proof.
  unfold JobDatabaseEngine, __new__, __init__, Lock, modify, mbind, M_bind.
  by destruct (jobdatabase_instance w).
Qed.

(** C5: two constructions in a row return the same instance, and the second
    one binds a new lock to it: the mutex the instance had after the first
    construction is not the mutex it has after the second. *)
Theorem second_construction_replaces_mutex chain w :
  ∃ self m1 m2 w1 w2,
    JobDatabaseEngine chain w = (Ret self, w1) ∧
    JobDatabaseEngine chain w1 = (Ret self, w2) ∧
    objects w1 !! self = Some (mkEngine m1 chain) ∧
    objects w2 !! self = Some (mkEngine m2 chain) ∧
    m1 ≠ m2.
Proof.
  rewrite JobDatabaseEngine_run.
  destruct (jobdatabase_instance w) as [self|] eqn:Hinst.
  - exists self, (next_id w), (S (next_id w)). eexists. eexists.
    split; [done |].
    split; [by rewrite JobDatabaseEngine_run; simpl; rewrite Hinst |].
    simpl. rewrite !lookup_insert_eq. split; [done |]. split; [done | lia].
  - exists (next_id w), (S (next_id w)), (S (S (next_id w))).
    eexists. eexists.
    split; [done |].
    split; [by rewrite JobDatabaseEngine_run |].
    simpl. rewrite !lookup_insert_eq. split; [done |]. split; [done | lia].
Qed.

(** While a caller is inside the critical section a second caller blocks;
    once [JobDatabaseEngine()] has been called again the second caller
    enters, although the first still holds the lock it took. *)
Lemma exclusion_lost_after_second_construction :
  held Scenario.in_critical_section = [mutex Scenario.engine] ∧
  (save Scenario.self Scenario.good Scenario.in_critical_section).1 = Block ∧
  held Scenario.constructed_again = [mutex Scenario.engine] ∧
  (save Scenario.self Scenario.good Scenario.constructed_again).1
  = Ret (Some 1, true, None).
Proof. repeat split; vm_compute; reflexivity. Qed.

(** ** Looking a job up *)

Lemma search_from_run js job_id idx w :
  Forall keyed js →
  search_from js job_id idx w
  = (Ret match first_with_id job_id js with
         | Some (i, _) => (true, (idx + i)%nat)
         | None => (false, 0%nat)
         end, w).
Proof.
  intros Hkeyed. revert idx.
  induction Hkeyed as [|r js (o & v & -> & Hv) _ IH]; intros idx; [done |].
  unfold first_with_id in *. simpl.
  erewrite bind_Ret; last by (unfold getitem; rewrite Hv).
  rewrite Hv. destruct (eq_int v job_id) eqn:Heq.
  - rewrite decide_True by done. simpl. by rewrite Nat.add_0_r.
  - rewrite decide_False by done. rewrite IH.
    destruct (list_find _ js) as [[i r]|]; simpl; [|done].
    by rewrite Nat.add_succ_r.
Qed.

(** What [get_item] answers on a collection whose records all carry a
    [job_id]. *)
Lemma get_item_run self job_id w e js :
  objects w !! self = Some e → mutex e ∉ held w →
  collection (disk w) = Some js → Forall keyed js →
  get_item self job_id w
  = (Ret match first_with_id job_id js with
         | Some (_, r) => (Some r, true, None)
         | None => (None, false, Some (not_found job_id))
         end,
     release (mutex e) (log EvRead (locked (mutex e) w))).
Proof.
  intros Hobj Hfree Hjs Hkeyed.
  apply collection_Some in Hjs as (o & Hdisk & Ho).
  unfold get_item.
  erewrite bind_Ret; last by (unfold attributes; rewrite Hobj).
  assert (lock_while_using_file (mutex e) (__get_item job_id) w
          = (Ret match first_with_id job_id js with
                 | Some (_, r) => (true, Some r)
                 | None => (false, None)
                 end,
             release (mutex e) (log EvRead (locked (mutex e) w)))) as Hlock.
  { apply lock_Ret; [done |]. unfold __get_item.
    erewrite bind_Ret; last by (unfold JobDatabaseRead; simpl; rewrite Hdisk).
    erewrite bind_Ret; last by (unfold getitem; rewrite Ho).
    erewrite bind_Ret; last by apply search_from_run.
    destruct (first_with_id job_id js) as [[i r]|] eqn:Hfind; [|done].
    apply list_find_Some in Hfind as (Hi & _ & _). simpl.
    erewrite bind_Ret; last by (unfold getitem_idx; rewrite Hi). done. }
  erewrite bind_Ret; last first.
  { unfold try_except. erewrite bind_Ret; last exact Hlock. done. }
  by destruct (first_with_id job_id js) as [[i r]|].
Qed.

(** C6: on a collection whose records all carry a [job_id], [get_item]
    answers a present identifier with a record of the collection that
    carries it (the first one) and success, and an absent identifier with
    no record and the error that names the identifier; the document is left
    as it was. *)
Theorem get_item_finds_exactly_the_present_ids self job_id w e js :
  objects w !! self = Some e → mutex e ∉ held w →
  collection (disk w) = Some js → Forall keyed js →
  ((∃ r, r ∈ js ∧ has_id job_id r = true) →
   ∃ i r, (get_item self job_id w).1 = Ret (Some r, true, None) ∧
          js !! i = Some r ∧ has_id job_id r = true ∧
          ∀ j r', js !! j = Some r' → (j < i)%nat →
                  has_id job_id r' ≠ true) ∧
  ((∀ r, r ∈ js → has_id job_id r ≠ true) →
   (get_item self job_id w).1
   = Ret (None, false,
          Some (ValueError ("Failed to find id: " +:+ pretty job_id)))) ∧
  disk (get_item self job_id w).2 = disk w.
Proof.
  intros Hobj Hfree Hjs Hkeyed.
  rewrite (get_item_run _ _ _ _ _ Hobj Hfree Hjs Hkeyed). simpl.
  split; [|split; [|done]].
  - intros (r & Hr & Hid).
    destruct (list_find_elem_of (λ r, has_id job_id r = true) js r Hr Hid)
      as [[i r'] Hfind].
    unfold first_with_id. rewrite Hfind.
    apply list_find_Some in Hfind as (Hi & Hid' & Hfirst).
    exists i, r'. eauto.
  - intros Habsent.
    assert (first_with_id job_id js = None) as ->; [|done].
    apply list_find_None, Forall_forall. exact Habsent.
Qed.

Lemma scenario_after_two_engine :
  objects Scenario.after_two !! Scenario.self = Some Scenario.engine.
Proof. reflexivity. Qed.

Lemma scenario_after_two_free :
  mutex Scenario.engine ∉ held Scenario.after_two.
Proof. vm_compute. apply not_elem_of_nil. Qed.

Lemma scenario_after_two_collection :
  collection (disk Scenario.after_two)
  = Some [new_record Scenario.good 1 Scenario.start;
          new_record Scenario.good 2 Scenario.after_one].
Proof. vm_compute. reflexivity. Qed.

Lemma keyed_new_record job id w : keyed (new_record job id w).
Proof. eexists _, _. split; [done |]. apply lookup_insert_eq. Qed.

Lemma get_item_finds_exactly_the_present_ids_witness :
  (objects Scenario.after_two !! Scenario.self = Some Scenario.engine ∧
   (mutex Scenario.engine ∉ held Scenario.after_two) ∧
   collection (disk Scenario.after_two)
   = Some [new_record Scenario.good 1 Scenario.start;
           new_record Scenario.good 2 Scenario.after_one] ∧
   Forall keyed [new_record Scenario.good 1 Scenario.start;
                 new_record Scenario.good 2 Scenario.after_one]) ∧
  (get_item Scenario.self 2 Scenario.after_two).1
  = Ret (Some (new_record Scenario.good 2 Scenario.after_one), true, None) ∧
  (get_item Scenario.self 5 Scenario.after_two).1
  = Ret (None, false, Some (ValueError "Failed to find id: 5")) ∧
  (((∃ r, r ∈ [new_record Scenario.good 1 Scenario.start;
               new_record Scenario.good 2 Scenario.after_one] ∧
          has_id 2 r = true) →
    ∃ i r, (get_item Scenario.self 2 Scenario.after_two).1
           = Ret (Some r, true, None) ∧
           [new_record Scenario.good 1 Scenario.start;
            new_record Scenario.good 2 Scenario.after_one] !! i = Some r ∧
           has_id 2 r = true ∧
           ∀ j r', [new_record Scenario.good 1 Scenario.start;
                    new_record Scenario.good 2 Scenario.after_one] !! j
                   = Some r' → (j < i)%nat → has_id 2 r' ≠ true) ∧
   ((∀ r, r ∈ [new_record Scenario.good 1 Scenario.start;
               new_record Scenario.good 2 Scenario.after_one] →
          has_id 2 r ≠ true) →
    (get_item Scenario.self 2 Scenario.after_two).1
    = Ret (None, false,
           Some (ValueError ("Failed to find id: " +:+ pretty 2)))) ∧
   disk (get_item Scenario.self 2 Scenario.after_two).2
   = disk Scenario.after_two).
Proof.
  assert (Forall keyed [new_record Scenario.good 1 Scenario.start;
                        new_record Scenario.good 2 Scenario.after_one])
    as Hkeyed by (repeat constructor; apply keyed_new_record).
  split.
  { exact (conj scenario_after_two_engine
             (conj scenario_after_two_free
                (conj scenario_after_two_collection Hkeyed))). }
  split; [vm_compute; reflexivity |].
  split; [vm_compute; reflexivity |].
  exact (get_item_finds_exactly_the_present_ids
           Scenario.self 2 Scenario.after_two _ _
           scenario_after_two_engine scenario_after_two_free
           scenario_after_two_collection Hkeyed).
Defined.

(** ** The accepted submission *)

Lemma test_success_passes_the_chain :
  ValidatorChains.get_job_validator_chain TestCreate.success = (true, None).
Proof. vm_compute. reflexivity. Qed.

(** The graph members of the chain see a job through its adjacency alone. *)
Lemma adjacency_of_accepted d :
  d !! "job_list" = Some (JObj accepted_job_list) →
  ValidatorChains.adjacency_of d
  = ValidatorChains.adjacency_of TestCreate.success.
Proof.
  intros Hlist. unfold ValidatorChains.adjacency_of at 1. rewrite Hlist.
  vm_compute. reflexivity.
Qed.

Lemma properties_of_accepted d bR1 bR2 bW1 bW2 :
  d !! "property" = Some (JObj (accepted_property bR1 bR2 bW1 bW2)) →
  ValidatorChains.properties_of d
  = Some [("W1", bW1); ("W2", bW2); ("R1", bR1); ("R2", bR2)].
Proof.
  intros Hprop. unfold ValidatorChains.properties_of. rewrite Hprop.
  vm_compute. reflexivity.
Qed.

Lemma graph_members_accept_test_success :
  ValidatorChains.single_component TestCreate.success = (true, None) ∧
  ValidatorChains.acyclic TestCreate.success = (true, None) ∧
  ValidatorChains.no_duplicate_edge TestCreate.success = (true, None).
Proof. repeat split; vm_compute; reflexivity. Qed.

Lemma on_graph_accepted check reason d :
  d !! "job_list" = Some (JObj accepted_job_list) →
  ValidatorChains.on_graph check reason d
  = ValidatorChains.on_graph check reason TestCreate.success.
Proof.
  intros Hlist. unfold ValidatorChains.on_graph.
  by rewrite (adjacency_of_accepted d Hlist).
Qed.

Lemma same_keys_accepted d bR1 bR2 bW1 bW2 :
  d !! "job_list" = Some (JObj accepted_job_list) →
  d !! "property" = Some (JObj (accepted_property bR1 bR2 bW1 bW2)) →
  ValidatorChains.same_keys d = (true, None).
Proof.
  intros Hlist Hprop. unfold ValidatorChains.same_keys.
  rewrite (adjacency_of_accepted d Hlist),
    (properties_of_accepted d _ _ _ _ Hprop).
  vm_compute. reflexivity.
Qed.

Lemma task_ok_file_task bag :
  file_task bag → ValidatorChains.task_ok bag = (true, None).
Proof.
  intros [Hkind Hfile]. unfold ValidatorChains.task_ok.
  destruct Hkind as [-> | ->]; unfold TaskSchemaValidator.validate; simpl;
    by rewrite bool_decide_eq_true_2.
Qed.

(** The chain accepts every job with the adjacency of the scenario whose
    tasks are read or write tasks that carry a filename. *)
Lemma accepted_scenario_passes_the_chain d bR1 bR2 bW1 bW2 :
  d !! "job_list" = Some (JObj accepted_job_list) →
  d !! "property" = Some (JObj (accepted_property bR1 bR2 bW1 bW2)) →
  file_task bR1 → file_task bR2 → file_task bW1 → file_task bW2 →
  ValidatorChains.get_job_validator_chain d = (true, None).
Proof.
  intros Hlist Hprop HR1 HR2 HW1 HW2.
  destruct graph_members_accept_test_success as (Hone & Hacyclic & Hnodup).
  unfold ValidatorChains.get_job_validator_chain, ValidatorChains.chain.
  rewrite (same_keys_accepted d _ _ _ _ Hlist Hprop).
  unfold ValidatorChains.single_component, ValidatorChains.acyclic,
    ValidatorChains.no_duplicate_edge in *.
  rewrite !(on_graph_accepted _ _ d Hlist), Hone, Hacyclic, Hnodup.
  unfold ValidatorChains.task_properties.
  rewrite (properties_of_accepted d _ _ _ _ Hprop). simpl.
  by rewrite (task_ok_file_task bW1), (task_ok_file_task bW2),
    (task_ok_file_task bR1), (task_ok_file_task bR2).
Qed.

(** C8: the chain of the spec accepts every job whose adjacency is
    [{R1:[R2,W1], R2:[W1,W2], W1:[W2], W2:[]}] and whose four tasks are read
    or write tasks that carry a filename property, whatever the filenames,
    the job name and the other fields of the job and of the bags; on an
    instance built with that chain [save] of such a job succeeds and assigns
    the next identifier, whenever the lock is free and the document is a
    writable collection that is empty or ends in a record with an integer
    [job_id]. *)
Theorem test_success_job_is_accepted self job w m js bR1 bR2 bW1 bW2 :
  objects w !! self
  = Some (mkEngine m ValidatorChains.get_job_validator_chain) →
  (heap w !!! job) !! "job_list" = Some (JObj accepted_job_list) →
  (heap w !!! job) !! "property"
  = Some (JObj (accepted_property bR1 bR2 bW1 bW2)) →
  file_task bR1 → file_task bR2 → file_task bW1 → file_task bW2 →
  m ∉ held w → writable w = true →
  collection (disk w) = Some js → is_Some (next_job_id js) →
  ValidatorChains.get_job_validator_chain (heap w !!! job) = (true, None) ∧
  ∃ id w', save self job w = (Ret (Some id, true, None), w') ∧
           next_job_id js = Some id ∧
           collection (disk w') = Some (js ++ [new_record job id w]).
Proof.
  intros Hobj Hlist Hprop HR1 HR2 HW1 HW2 Hfree Hwr Hjs [id Hnext].
  pose proof (accepted_scenario_passes_the_chain _ _ _ _ _
                Hlist Hprop HR1 HR2 HW1 HW2) as Hchain.
  split; [exact Hchain |].
  apply collection_Some in Hjs as (o & Hdisk & Ho).
  exists id, (save_world m job id o js w).
  split; [|split; [done | apply save_world_collection]].
  by apply (save_Ret self job w _ o js id Hobj).
Qed.

Lemma scenario_start_free : 1%nat ∉ held Scenario.start.
Proof. vm_compute. apply not_elem_of_nil. Qed.

Lemma scenario_start_writable : writable Scenario.start = true.
Proof. reflexivity. Qed.

Lemma scenario_start_job_list :
  (heap Scenario.start !!! Scenario.good) !! "job_list"
  = Some (JObj accepted_job_list).
Proof. vm_compute. reflexivity. Qed.

Lemma scenario_start_property :
  (heap Scenario.start !!! Scenario.good) !! "property"
  = Some (JObj (accepted_property
                  (<["task_name" := JStr "read"]>
                     (<["filename" := JStr "init.csv"]> ∅))
                  (<["task_name" := JStr "read"]>
                     (<["filename" := JStr "1.csv"]> ∅))
                  (<["task_name" := JStr "write"]>
                     (<["filename" := JStr "a.csv"]> ∅))
                  (<["task_name" := JStr "write"]>
                     (<["filename" := JStr "b.csv"]> ∅)))).
Proof. vm_compute. reflexivity. Qed.

Lemma file_task_read value :
  file_task (<["task_name" := JStr "read"]> (<["filename" := JStr value]> ∅)).
Proof.
  split; [left; apply lookup_insert_eq |].
  exists (JStr value). by rewrite lookup_insert_ne, lookup_insert_eq.
Qed.

Lemma file_task_write value :
  file_task (<["task_name" := JStr "write"]> (<["filename" := JStr value]> ∅)).
Proof.
  split; [right; apply lookup_insert_eq |].
  exists (JStr value). by rewrite lookup_insert_ne, lookup_insert_eq.
Qed.

Lemma test_success_job_is_accepted_witness :
  (objects Scenario.start !! Scenario.self
   = Some (mkEngine 1%nat ValidatorChains.get_job_validator_chain) ∧
   (heap Scenario.start !!! Scenario.good) !! "job_list"
   = Some (JObj accepted_job_list) ∧
   (heap Scenario.start !!! Scenario.good) !! "property"
   = Some (JObj (accepted_property
                   (<["task_name" := JStr "read"]>
                      (<["filename" := JStr "init.csv"]> ∅))
                   (<["task_name" := JStr "read"]>
                      (<["filename" := JStr "1.csv"]> ∅))
                   (<["task_name" := JStr "write"]>
                      (<["filename" := JStr "a.csv"]> ∅))
                   (<["task_name" := JStr "write"]>
                      (<["filename" := JStr "b.csv"]> ∅)))) ∧
   file_task
     (<["task_name" := JStr "read"]> (<["filename" := JStr "init.csv"]> ∅)) ∧
   file_task
     (<["task_name" := JStr "read"]> (<["filename" := JStr "1.csv"]> ∅)) ∧
   file_task
     (<["task_name" := JStr "write"]> (<["filename" := JStr "a.csv"]> ∅)) ∧
   file_task
     (<["task_name" := JStr "write"]> (<["filename" := JStr "b.csv"]> ∅)) ∧
   (1%nat ∉ held Scenario.start) ∧ writable Scenario.start = true ∧
   collection (disk Scenario.start) = Some [] ∧
   is_Some (next_job_id [])) ∧
  ValidatorChains.get_job_validator_chain
    (heap Scenario.start !!! Scenario.good) = (true, None) ∧
  ∃ id w', save Scenario.self Scenario.good Scenario.start
           = (Ret (Some id, true, None), w') ∧
           next_job_id [] = Some id ∧
           collection (disk w')
           = Some ([] ++ [new_record Scenario.good id Scenario.start]).
Proof.
  assert (is_Some (next_job_id [])) as Hnext by (by exists 1).
  split.
  { exact (conj scenario_engine
             (conj scenario_start_job_list
                (conj scenario_start_property
                   (conj (file_task_read "init.csv")
                      (conj (file_task_read "1.csv")
                         (conj (file_task_write "a.csv")
                            (conj (file_task_write "b.csv")
                               (conj scenario_start_free
                                  (conj scenario_start_writable
                                     (conj scenario_start_empty
                                        Hnext)))))))))). }
  exact (test_success_job_is_accepted Scenario.self Scenario.good
           Scenario.start 1%nat [] _ _ _ _ scenario_engine
           scenario_start_job_list scenario_start_property
           (file_task_read "init.csv") (file_task_read "1.csv")
           (file_task_write "a.csv") (file_task_write "b.csv")
           scenario_start_free scenario_start_writable scenario_start_empty
           Hnext).
Defined.

(** ** Rejections of the chain carry a reason *)

Lemma reasoned_on_graph check reason job :
  reasoned (ValidatorChains.on_graph check reason job).
Proof.
  unfold ValidatorChains.on_graph.
  destruct (ValidatorChains.adjacency_of job) as [adj|]; [|right; eauto].
  destruct (check adj); [by left | right; eauto].
Qed.

Lemma reasoned_same_keys job : reasoned (ValidatorChains.same_keys job).
Proof.
  unfold ValidatorChains.same_keys.
  destruct (ValidatorChains.adjacency_of job) as [adj|]; [|right; eauto].
  destruct (ValidatorChains.properties_of job) as [props|]; [|right; eauto].
  case_bool_decide; [by left | right; eauto].
Qed.

Lemma reasoned_task_ok bag : reasoned (ValidatorChains.task_ok bag).
Proof.
  unfold ValidatorChains.task_ok.
  destruct (bag !! "task_name") as [[| | |task_name| |]|];
    try (right; eexists; reflexivity).
  destruct (TaskSchemaValidator.validate task_name bag) as [[] reason];
    [by left | right; eauto].
Qed.

Lemma reasoned_first_failure rs :
  Forall reasoned rs → reasoned (ValidatorChains.first_failure rs).
Proof.
  induction 1 as [|r rs Hr _ IH]; simpl; [by left |].
  destruct Hr as [-> | [reason ->]]; [done |]. right. by exists reason.
Qed.

Lemma reasoned_task_properties job :
  reasoned (ValidatorChains.task_properties job).
Proof.
  unfold ValidatorChains.task_properties.
  destruct (ValidatorChains.properties_of job) as [props|]; [|right; eauto].
  apply reasoned_first_failure, Forall_fmap, Forall_forall.
  intros p _. apply reasoned_task_ok.
Qed.

Lemma reasoned_chain members job :
  Forall (λ v, ∀ job, reasoned (v job)) members →
  reasoned (ValidatorChains.chain members job).
Proof.
  induction 1 as [|v members Hv _ IH]; simpl; [by left |].
  destruct (Hv job) as [-> | [reason ->]]; [done |]. right. by exists reason.
Qed.

(** The chain of the spec answers [(True, None)] or [(False, err)] with an
    error. *)
Lemma get_job_validator_chain_reasoned job :
  reasoned (ValidatorChains.get_job_validator_chain job).
Proof.
  apply reasoned_chain.
  repeat (apply Forall_cons_2 || apply Forall_nil_2).
  - apply reasoned_same_keys.
  - intros j. apply reasoned_on_graph.
  - intros j. apply reasoned_on_graph.
  - intros j. apply reasoned_on_graph.
  - apply reasoned_task_properties.
Qed.

(** With the chain of the spec, a call of [save] that returns answers
    [(id, True, None)] or [(None, False, err)] with an error. *)
Lemma save_result_shape_with_chain self job w m r w' :
  objects w !! self
  = Some (mkEngine m ValidatorChains.get_job_validator_chain) →
  save self job w = (Ret r, w') →
  (∃ id, r = (Some id, true, None)) ∨ (∃ err, r = (None, false, Some err)).
Proof.
  intros Hobj Hsave.
  apply save_Ret_inv in Hsave as (e & Hobj' & Hcases).
  assert (e = mkEngine m ValidatorChains.get_job_validator_chain) as ->
    by congruence.
  destruct Hcases as [(Hrej & -> & _)|Hok].
  - right. simpl in *.
    destruct (get_job_validator_chain_reasoned (heap w !!! job))
      as [Hr | [reason Hr]]; rewrite Hr in *; simpl in *.
    + by destruct Hrej as [? | [? ?]].
    + eauto.
  - destruct Hok as (_ & _ & _ & o & js & id & _ & _ & _ & -> & _).
    left. eauto.
Qed.

(** The chain of the spec rejects the seven other submissions of
    [test/test_create.py]. *)
Lemma other_submissions_rejected :
  Forall (λ job, (ValidatorChains.get_job_validator_chain job).1 = false)
    [TestCreate.no_over_two_graph; TestCreate.no_cycle_in_graph;
     TestCreate.no_double_of_one_edge; TestCreate.property_size_not_match;
     TestCreate.property_read_failed; TestCreate.property_write_failed;
     TestCreate.property_drop_failed].
Proof.
  repeat (apply Forall_cons_2 || apply Forall_nil_2); vm_compute; reflexivity.
Qed.

(** * Further properties of the engine *)

(** ** Records and their identifiers *)

Lemma has_id_record_id job_id r :
  has_id job_id r = true ↔ record_id r = Some job_id.
Proof.
  destruct r as [| | | | |o]; simpl; try done.
  destruct (o !! "job_id") as [v|]; simpl; [|done].
  unfold eq_int. destruct (as_int v) as [z|]; [|done].
  rewrite bool_decide_eq_true. naive_solver.
Qed.

Lemma record_id_keyed r id : record_id r = Some id → keyed r.
Proof.
  destruct r as [| | | | |o]; simpl; try done.
  destruct (o !! "job_id") as [v|] eqn:Hv; [|done]. intros _.
  by exists o, v.
Qed.

Lemma job_ids_keyed js ids : job_ids js = Some ids → Forall keyed js.
Proof.
  unfold job_ids. rewrite mapM_Some. intros Hjs.
  induction Hjs as [|r id js ids Hr _ IH]; constructor; [|done].
  by eapply record_id_keyed.
Qed.

Lemma job_ids_elem_of js ids r :
  job_ids js = Some ids → r ∈ js → ∃ id, id ∈ ids ∧ record_id r = Some id.
Proof.
  unfold job_ids. rewrite mapM_Some. intros Hjs Hr.
  induction Hjs as [|r' id js ids Hr' _ IH]; [by apply elem_of_nil in Hr |].
  apply elem_of_cons in Hr as [-> | Hr].
  - exists id. split; [left | done].
  - destruct (IH Hr) as (id' & Hid' & Hrec). exists id'. split; [by right | done].
Qed.

Lemma job_ids_elem_of_inv js ids id :
  job_ids js = Some ids → id ∈ ids → ∃ r, r ∈ js ∧ record_id r = Some id.
Proof.
  unfold job_ids. rewrite mapM_Some. intros Hjs Hid.
  induction Hjs as [|r' id' js ids Hr' _ IH]; [by apply elem_of_nil in Hid |].
  apply elem_of_cons in Hid as [-> | Hid].
  - exists r'. split; [left | done].
  - destruct (IH Hid) as (r & Hr & Hrec). exists r. split; [by right | done].
Qed.

(** The first record with an identifier, on a collection whose records all
    carry an integer [job_id]. *)
Lemma first_with_id_present js ids id :
  job_ids js = Some ids → id ∈ ids →
  ∃ i r, first_with_id id js = Some (i, r) ∧ record_id r = Some id.
Proof.
  intros Hjs Hid.
  destruct (job_ids_elem_of_inv _ _ _ Hjs Hid) as (r & Hr & Hrec).
  apply has_id_record_id in Hrec.
  destruct (list_find_elem_of (λ r, has_id id r = true) js r Hr Hrec)
    as [[i r'] Hfind].
  exists i, r'. split; [done |].
  apply list_find_Some in Hfind as (_ & Hid' & _).
  by apply has_id_record_id.
Qed.

Lemma first_with_id_absent js ids id :
  job_ids js = Some ids → id ∉ ids → first_with_id id js = None.
Proof.
  intros Hjs Hid. apply list_find_None, Forall_forall.
  intros r Hr Hhas. apply has_id_record_id in Hhas.
  destruct (job_ids_elem_of _ _ _ Hjs Hr) as (id' & Hid' & Hrec).
  congruence.
Qed.

Lemma first_with_id_snoc_fresh js ids id r :
  job_ids js = Some ids → id ∉ ids → record_id r = Some id →
  first_with_id id (js ++ [r]) = Some (length js, r).
Proof.
  intros Hjs Hid Hrec. apply list_find_Some.
  split; [by rewrite lookup_app_r, Nat.sub_diag |].
  split; [by apply has_id_record_id |].
  intros j r' Hj Hlt Hhas. rewrite lookup_app_l in Hj by done.
  apply has_id_record_id in Hhas.
  apply list_elem_of_lookup_2 in Hj.
  destruct (job_ids_elem_of _ _ _ Hjs Hj) as (id' & Hid' & Hrec').
  congruence.
Qed.

(** ** Reset followed by a lookup or a save *)

Lemma reset_run self w :
  writable w = true →
  reset self w
  = (Ret tt, set_disk (Some empty_collection) (log (EvWrite empty_collection) w)).
Proof. intros Hwr. unfold reset, JobDatabaseWrite. by rewrite Hwr. Qed.

(** X1: after [reset] on a writable file, whatever the document was before,
    [get_item] finds no identifier: it answers
    [(None, False, ValueError("Failed to find id: <id>"))]. *)
Theorem reset_then_get_item_finds_nothing self job_id w e :
  writable w = true → objects w !! self = Some e → mutex e ∉ held w →
  (reset self w).1 = Ret tt ∧
  (get_item self job_id (reset self w).2).1
  = Ret (None, false,
         Some (ValueError ("Failed to find id: " +:+ pretty job_id))).
Proof.
  intros Hwr Hobj Hfree. rewrite (reset_run _ _ Hwr). split; [done |].
  by erewrite (get_item_run self job_id _ e []).
Qed.

(** X2: after [reset] on a writable file, the next accepted job gets the
    identifier 1, whatever identifiers were handed out before, and the
    collection holds that job alone. *)
Theorem reset_then_save_assigns_one self job w e :
  writable w = true → objects w !! self = Some e → mutex e ∉ held w →
  validator e (heap w !!! job) = (true, None) →
  (save self job (reset self w).2).1 = Ret (Some 1, true, None) ∧
  collection (disk (save self job (reset self w).2).2)
  = Some [new_record job 1 w].
Proof.
  intros Hwr Hobj Hfree Hv. rewrite (reset_run _ _ Hwr).
  erewrite (save_Ret self job _ e _ [] 1); try done.
  split; [done |]. exact (save_world_collection _ _ _ _ _ _).
Qed.

Lemma scenario_after_two_writable : writable Scenario.after_two = true.
Proof. vm_compute. reflexivity. Qed.

Lemma scenario_after_two_good_valid :
  validator Scenario.engine (heap Scenario.after_two !!! Scenario.good)
  = (true, None).
Proof. vm_compute. reflexivity. Qed.

Lemma reset_then_get_item_finds_nothing_witness :
  (writable Scenario.after_two = true ∧
   objects Scenario.after_two !! Scenario.self = Some Scenario.engine ∧
   (mutex Scenario.engine ∉ held Scenario.after_two)) ∧
  (get_item Scenario.self 1 Scenario.after_two).1
  = Ret (Some (new_record Scenario.good 1 Scenario.start), true, None) ∧
  (reset Scenario.self Scenario.after_two).1 = Ret tt ∧
  (get_item Scenario.self 1 (reset Scenario.self Scenario.after_two).2).1
  = Ret (None, false, Some (ValueError ("Failed to find id: " +:+ pretty 1))).
Proof.
  split.
  { exact (conj scenario_after_two_writable
             (conj scenario_after_two_engine scenario_after_two_free)). }
  split; [vm_compute; reflexivity |].
  exact (reset_then_get_item_finds_nothing Scenario.self 1 Scenario.after_two
           Scenario.engine scenario_after_two_writable
           scenario_after_two_engine scenario_after_two_free).
Defined.

Lemma reset_then_save_assigns_one_witness :
  (writable Scenario.after_two = true ∧
   objects Scenario.after_two !! Scenario.self = Some Scenario.engine ∧
   (mutex Scenario.engine ∉ held Scenario.after_two) ∧
   validator Scenario.engine (heap Scenario.after_two !!! Scenario.good)
   = (true, None)) ∧
  (save Scenario.self Scenario.good
     (reset Scenario.self Scenario.after_two).2).1
  = Ret (Some 1, true, None) ∧
  collection
    (disk (save Scenario.self Scenario.good
             (reset Scenario.self Scenario.after_two).2).2)
  = Some [new_record Scenario.good 1 Scenario.after_two].
Proof.
  split.
  { exact (conj scenario_after_two_writable
             (conj scenario_after_two_engine
                (conj scenario_after_two_free scenario_after_two_good_valid))). }
  exact (reset_then_save_assigns_one Scenario.self Scenario.good
           Scenario.after_two Scenario.engine scenario_after_two_writable
           scenario_after_two_engine scenario_after_two_free
           scenario_after_two_good_valid).
Defined.

(** ** A save followed by a lookup *)

Lemma save_world_objects m job id o js w :
  objects (save_world m job id o js w) = objects w.
Proof. done. Qed.

Lemma save_world_held m job id o js w :
  m ∉ held w → held (save_world m job id o js w) = held w.
Proof. intros Hfree. simpl. by apply filter_ne_cons_fresh. Qed.

(** X3: a job that [save] stored under an identifier no record carried
    before is what [get_item] returns for that identifier right after: the
    caller's dictionary as it was submitted, with [job_id] bound. *)
Theorem save_then_get_item_returns_the_job self job w js ids id w' :
  collection (disk w) = Some js → job_ids js = Some ids → id ∉ ids →
  save self job w = (Ret (Some id, true, None), w') →
  (get_item self id w').1 = Ret (Some (new_record job id w), true, None).
Proof.
  intros Hjs Hids Hfresh Hsave.
  apply save_Ret_inv in Hsave as (e & Hobj & [(_ & [=] & _)|Hok]).
  destruct Hok as (_ & Hfree & _ & o & js' & id' & Hdoc & Ho & _ & [= <-] & ->).
  assert (js' = js) as ->.
  { apply collection_Some in Hjs as (o' & Ho' & Hjs). by simplify_eq. }
  erewrite (get_item_run self id _ e (js ++ [new_record job id w])).
  - simpl. by erewrite first_with_id_snoc_fresh;
      [| done | done | apply record_id_new_record].
  - by rewrite save_world_objects.
  - by rewrite save_world_held.
  - apply save_world_collection.
  - apply Forall_app. split; [by eapply job_ids_keyed |].
    repeat constructor. apply keyed_new_record.
Qed.

Lemma scenario_after_one_collection :
  collection (disk Scenario.after_one)
  = Some [new_record Scenario.good 1 Scenario.start].
Proof. vm_compute. reflexivity. Qed.

Lemma save_then_get_item_returns_the_job_witness :
  (collection (disk Scenario.after_one)
   = Some [new_record Scenario.good 1 Scenario.start] ∧
   job_ids [new_record Scenario.good 1 Scenario.start] = Some [1] ∧
   (2 ∉ [1]) ∧
   save Scenario.self Scenario.good Scenario.after_one
   = (Ret (Some 2, true, None), Scenario.after_two)) ∧
  (get_item Scenario.self 2 Scenario.after_two).1
  = Ret (Some (new_record Scenario.good 2 Scenario.after_one), true, None).
Proof.
  assert (job_ids [new_record Scenario.good 1 Scenario.start] = Some [1])
    as Hids.
  { apply (job_ids_snoc [] [] _ 1); [done | apply record_id_new_record]. }
  assert (2 ∉ [1]) as Hfresh by (by intros ?%list_elem_of_singleton).
  split.
  { exact (conj scenario_after_one_collection
             (conj Hids (conj Hfresh scenario_second_save))). }
  exact (save_then_get_item_returns_the_job Scenario.self Scenario.good
           Scenario.after_one _ _ 2 Scenario.after_two
           scenario_after_one_collection Hids Hfresh scenario_second_save).
Defined.

(** X4: after any sequence of successful saves that starts from the empty
    collection, [get_item] finds a record for exactly the identifiers those
    saves returned, and the record it finds carries the identifier asked
    for. *)
Theorem get_item_finds_what_save_returned self w ids w' e job_id :
  collection (disk w) = Some [] → saves self w ids w' →
  objects w' !! self = Some e → mutex e ∉ held w' →
  (job_id ∈ ids →
   ∃ r, (get_item self job_id w').1 = Ret (Some r, true, None) ∧
        record_id r = Some job_id) ∧
  (job_id ∉ ids →
   (get_item self job_id w').1
   = Ret (None, false,
          Some (ValueError ("Failed to find id: " +:+ pretty job_id)))).
Proof.
  intros Hempty Hsaves Hobj Hfree.
  destruct (saves_first_ids _ _ _ _ Hempty Hsaves) as (js & Hjs & Hids & _).
  rewrite (get_item_run _ _ _ _ _ Hobj Hfree Hjs (job_ids_keyed _ _ Hids)).
  simpl. split.
  - intros Hin.
    destruct (first_with_id_present _ _ _ Hids Hin) as (i & r & -> & Hrec).
    eauto.
  - intros Hout. by rewrite (first_with_id_absent _ _ _ Hids Hout).
Qed.

Lemma get_item_finds_what_save_returned_witness :
  (collection (disk Scenario.start) = Some [] ∧
   saves Scenario.self Scenario.start [1; 2] Scenario.after_two ∧
   objects Scenario.after_two !! Scenario.self = Some Scenario.engine ∧
   (mutex Scenario.engine ∉ held Scenario.after_two)) ∧
  (2 ∈ [1; 2] →
   ∃ r, (get_item Scenario.self 2 Scenario.after_two).1
        = Ret (Some r, true, None) ∧
        record_id r = Some 2) ∧
  (2 ∉ [1; 2] →
   (get_item Scenario.self 2 Scenario.after_two).1
   = Ret (None, false,
          Some (ValueError ("Failed to find id: " +:+ pretty 2)))).
Proof.
  split.
  { exact (conj scenario_start_empty
             (conj scenario_two_saves
                (conj scenario_after_two_engine scenario_after_two_free))). }
  exact (get_item_finds_what_save_returned Scenario.self Scenario.start
           [1; 2] Scenario.after_two Scenario.engine 2
           scenario_start_empty scenario_two_saves
           scenario_after_two_engine scenario_after_two_free).
Defined.

(** ** Identifiers stay increasing *)

Lemma increasing_last ids x y :
  increasing ids → last ids = Some x → y ∈ ids → y ≤ x.
Proof.
  intros Hinc Hlast Hy.
  apply list_elem_of_lookup in Hy as [i Hi].
  rewrite last_lookup in Hlast.
  destruct (decide (i = pred (length ids))) as [-> | Hne].
  - assert (x = y) by congruence. lia.
  - apply lookup_lt_Some in Hi as Hlt.
    assert (y < x); [|lia].
    apply (Hinc i (pred (length ids)) y x); [lia | done | done].
Qed.

Lemma increasing_snoc ids x :
  increasing ids → (∀ y, y ∈ ids → y < x) → increasing (ids ++ [x]).
Proof.
  intros Hinc Hx i j a b Hij Hi Hj.
  destruct (decide (j < length ids)%nat) as [Hlt | Hge].
  - rewrite lookup_app_l in Hi by lia. rewrite lookup_app_l in Hj by done.
    by apply (Hinc i j).
  - apply lookup_lt_Some in Hj as Hj'. rewrite length_app in Hj'. simpl in Hj'.
    assert (j = length ids) as -> by lia.
    rewrite lookup_app_r, Nat.sub_diag in Hj by done. injection Hj as <-.
    rewrite lookup_app_l in Hi by done.
    apply Hx. by eapply list_elem_of_lookup_2.
Qed.

(** X5: on a collection whose integer identifiers grow strictly from record
    to record, a successful [save] returns an identifier greater than every
    identifier of the collection, so one that no record carries, and the
    identifiers of the collection it leaves still grow strictly. *)
Theorem save_keeps_ids_increasing self job w js ids id w' :
  collection (disk w) = Some js → job_ids js = Some ids → increasing ids →
  save self job w = (Ret (Some id, true, None), w') →
  (∀ i, i ∈ ids → i < id) ∧ (id ∉ ids) ∧
  ∃ js', collection (disk w') = Some js' ∧
         job_ids js' = Some (ids ++ [id]) ∧ increasing (ids ++ [id]).
Proof.
  intros Hjs Hids Hinc Hsave.
  apply save_Ret_inv in Hsave as (e & Hobj & [(_ & [=] & _)|Hok]).
  destruct Hok as (_ & _ & _ & o & js' & id' & Hdoc & Ho & Hnext & [= <-] & ->).
  assert (js' = js) as ->.
  { apply collection_Some in Hjs as (o' & Ho' & Hjs). by simplify_eq. }
  assert (∀ i, i ∈ ids → i < id) as Hgreater.
  { intros i Hi. unfold next_job_id in Hnext.
    destruct (last js) as [r|] eqn:Hlast.
    - destruct (job_ids_last _ _ _ Hids Hlast) as (z & Hz & Hrec).
      rewrite Hrec in Hnext. injection Hnext as <-.
      pose proof (increasing_last _ _ _ Hinc Hz Hi). lia.
    - apply last_None in Hlast as ->.
      unfold job_ids in Hids. apply mapM_Some, Forall2_nil_inv_l in Hids.
      subst. by apply elem_of_nil in Hi. }
  split; [done |].
  split; [intros Hin; specialize (Hgreater _ Hin); lia |].
  exists (js ++ [new_record job id w]).
  split; [apply save_world_collection |].
  split; [apply job_ids_snoc; [done | apply record_id_new_record] |].
  by apply increasing_snoc.
Qed.

Lemma save_keeps_ids_increasing_witness :
  (collection (disk Scenario.after_one)
   = Some [new_record Scenario.good 1 Scenario.start] ∧
   job_ids [new_record Scenario.good 1 Scenario.start] = Some [1] ∧
   increasing [1] ∧
   save Scenario.self Scenario.good Scenario.after_one
   = (Ret (Some 2, true, None), Scenario.after_two)) ∧
  (∀ i, i ∈ [1] → i < 2) ∧ (2 ∉ [1]) ∧
  ∃ js', collection (disk Scenario.after_two) = Some js' ∧
         job_ids js' = Some ([1] ++ [2]) ∧ increasing ([1] ++ [2]).
Proof.
  assert (job_ids [new_record Scenario.good 1 Scenario.start] = Some [1])
    as Hids.
  { apply (job_ids_snoc [] [] _ 1); [done | apply record_id_new_record]. }
  assert (increasing [1]) as Hinc.
  { intros [|i] [|j] x y Hij Hi Hj; simpl in *; try lia; done. }
  split.
  { exact (conj scenario_after_one_collection
             (conj Hids (conj Hinc scenario_second_save))). }
  exact (save_keeps_ids_increasing Scenario.self Scenario.good
           Scenario.after_one _ _ 2 Scenario.after_two
           scenario_after_one_collection Hids Hinc scenario_second_save).
Defined.

(** ** Lookups leave the world alone *)

Lemma read_only_pure {A : Type} (p : M A) :
  (∀ w, (p w).2 = w) → read_only p.
Proof. intros Hp w. by rewrite Hp. Qed.

Lemma read_only_bind {A B : Type} (p : M A) (k : A → M B) :
  read_only p → (∀ a, read_only (k a)) → read_only (p ≫= k).
Proof.
  intros Hp Hk w. specialize (Hp w). unfold mbind, M_bind.
  destruct (p w) as [[a|e|] w1]; simpl in *; [|done..].
  destruct (Hk a w1) as (-> & -> & -> & -> & ->). done.
Qed.

Lemma read_only_try_except {A : Type} (p : M A) (h : exn → M A) :
  read_only p → (∀ e, read_only (h e)) → read_only (try_except p h).
Proof.
  intros Hp Hh w. specialize (Hp w). unfold try_except.
  destruct (p w) as [[a|e|] w1]; simpl in *; [done| |done].
  destruct (Hh e w1) as (-> & -> & -> & -> & ->). done.
Qed.

Lemma read_only_getitem v k : read_only (getitem v k).
Proof.
  apply read_only_pure. intros w. unfold getitem. by repeat case_match.
Qed.

Lemma read_only_search_from js job_id idx :
  read_only (search_from js job_id idx).
Proof.
  revert idx. induction js as [|r js IH]; intros idx; simpl.
  - by apply read_only_pure.
  - apply read_only_bind; [apply read_only_getitem |].
    intros v. destruct (eq_int v job_id); [by apply read_only_pure | apply IH].
Qed.

Lemma read_only___get_item job_id : read_only (__get_item job_id).
Proof.
  unfold __get_item.
  apply read_only_bind.
  { intros w. unfold JobDatabaseRead.
    by destruct (disk w) eqn:Hd; simpl; rewrite ?Hd. }
  intros doc. apply read_only_bind; [apply read_only_getitem | intros storage].
  apply read_only_bind.
  { unfold search_job_by_job_id.
    destruct storage; try by apply read_only_pure.
    apply read_only_search_from. }
  intros [is_exists idx]. destruct is_exists; simpl; [|by apply read_only_pure].
  apply read_only_bind; [|intros; by apply read_only_pure].
  apply read_only_pure. intros w. unfold getitem_idx. by repeat case_match.
Qed.

(** A decorated closure that neither blocks nor touches the world leaves
    the lock as it found it. *)
Lemma read_only_lock {A : Type} (m : loc) (body : M A) :
  read_only body → file_only body →
  read_only (lock_while_using_file m body).
Proof.
  intros Hro Hfo w. unfold lock_while_using_file, mbind, M_bind, acquire.
  case_bool_decide as Hheld; [done |].
  specialize (Hro (log (EvAcquire m) (set_held (m :: held w) w))).
  destruct (Hfo (log (EvAcquire m) (set_held (m :: held w) w))) as [Hb _].
  unfold try_finally.
  destruct (body _) as [[a|e|] w1]; simpl in *; [| |done];
    destruct Hro as (-> & -> & -> & -> & ->);
    by rewrite filter_ne_cons_fresh.
Qed.

(** X6: [get_item] only reads: in every world, whatever it answers, the
    document, the dictionaries of the callers, the attributes of the
    instances and the set of held locks are the same after the call. *)
Theorem get_item_changes_nothing self job_id w :
  disk (get_item self job_id w).2 = disk w ∧
  writable (get_item self job_id w).2 = writable w ∧
  heap (get_item self job_id w).2 = heap w ∧
  objects (get_item self job_id w).2 = objects w ∧
  held (get_item self job_id w).2 = held w.
Proof.
  revert w. change (read_only (get_item self job_id)). unfold get_item.
  apply read_only_bind.
  { apply read_only_pure. intros w. unfold attributes. by case_match. }
  intros e. apply read_only_bind.
  - apply read_only_try_except; [|intros; by apply read_only_pure].
    apply read_only_bind; [|intros; by apply read_only_pure].
    apply read_only_lock;
      [apply read_only___get_item | apply file_only___get_item].
  - intros [[[] res]|err]; by apply read_only_pure.
Qed.



Lemma scenario_no_document_engine :
  objects Scenario.no_document !! Scenario.self = Some Scenario.engine.
Proof. reflexivity. Qed.

Lemma scenario_no_document_free :
  mutex Scenario.engine ∉ held Scenario.no_document.
Proof. vm_compute. apply not_elem_of_nil. Qed.


(** ** When [save] fails *)

Lemma bind_Raise {A B : Type} (m : M A) (k : A → M B) w e w1 :
  m w = (Raise e, w1) → (m ≫= k) w = (Raise e, w1).
Proof. unfold mbind, M_bind. by intros ->. Qed.

Lemma writes_on_return_bind {A B : Type} (p : M A) (k : A → M B) :
  (∀ w, disk (p w).2 = disk w) → (∀ a, writes_on_return (k a)) →
  writes_on_return (p ≫= k).
Proof.
  intros Hp Hk w. specialize (Hp w). unfold mbind, M_bind.
  destruct (p w) as [[a|e|] w1]; simpl in *; [|by right..].
  destruct (Hk a w1) as [Hret | Hdisk]; [by left | right; congruence].
Qed.

Lemma getitem_same_world v k w : (getitem v k w).2 = w.
Proof. unfold getitem. by repeat case_match. Qed.

Lemma bind_same_world {A B : Type} (p : M A) (k : A → M B) :
  (∀ w, (p w).2 = w) → (∀ a w, (k a w).2 = w) → ∀ w, ((p ≫= k) w).2 = w.
Proof.
  intros Hp Hk w. specialize (Hp w). unfold mbind, M_bind.
  destruct (p w) as [[a|e|] w1]; simpl in *; subst; [apply Hk | done..].
Qed.

Lemma writes_on_return___save job : writes_on_return (__save job).
Proof.
  unfold __save.
  apply writes_on_return_bind.
  { intros w. unfold JobDatabaseRead. by destruct (disk w) eqn:Hd. }
  intros storage. apply writes_on_return_bind.
  { intros w. by rewrite getitem_same_world. }
  intros jobs. apply writes_on_return_bind.
  { intros w. by destruct jobs. }
  intros n. apply writes_on_return_bind.
  { intros w. case_bool_decide; [done |]. f_equal. revert w.
    apply bind_same_world; [apply getitem_same_world | intros jobs'].
    apply bind_same_world.
    { intros w. unfold getitem_last. by repeat case_match. }
    intros last_job.
    apply bind_same_world; [apply getitem_same_world | intros v w].
    unfold add_one. by case_match. }
  intros new_job_id. apply writes_on_return_bind; [done |].
  intros []. apply writes_on_return_bind.
  { intros w. by rewrite getitem_same_world. }
  intros jobs'. apply writes_on_return_bind; [done |].
  intros d. apply writes_on_return_bind.
  { intros w. by destruct jobs'. }
  intros jobs''. apply writes_on_return_bind.
  { intros w. by destruct storage. }
  intros storage' w. unfold mbind, M_bind, JobDatabaseWrite.
  destruct (writable w); [left; eauto | by right].
Qed.

Lemma writes_on_return_lock {A : Type} (m : loc) (body : M A) :
  writes_on_return body → writes_on_return (lock_while_using_file m body).
Proof.
  intros Hbody w. unfold lock_while_using_file, mbind, M_bind, acquire.
  case_bool_decide; [by right |]. unfold try_finally.
  destruct (Hbody (log (EvAcquire m) (set_held (m :: held w) w)))
    as [[a Hret] | Hdisk];
    destruct (body _) as [[a'|x|] w1]; simpl in *;
    solve [left; eauto | by right].
Qed.

(** X8: [save] changes the durable document only on a call that returns an
    identifier: when it rejects the job, raises or blocks, the document is
    the one it found. *)
Theorem save_writes_only_on_success self job w :
  (∃ id, (save self job w).1 = Ret (Some id, true, None)) ∨
  disk (save self job w).2 = disk w.
Proof.
  unfold save.
  destruct (objects w !! self) as [e|] eqn:Hobj; last first.
  { right. erewrite bind_Raise; [done |]. unfold attributes. by rewrite Hobj. }
  erewrite bind_Ret; last by (unfold attributes; rewrite Hobj).
  erewrite bind_Ret; last done.
  destruct (validator e (heap w !!! job)) as [is_valid err].
  destruct (negb is_valid || bool_decide (is_Some err)); [by right |].
  unfold mbind, M_bind.
  destruct (writes_on_return_lock (mutex e) (__save job)
              (writes_on_return___save job) w) as [[id Hret] | Hdisk];
    destruct (lock_while_using_file _ _ w) as [[id'|x|] w1]; simpl in *;
    solve [left; eauto | by right].
Qed.

Lemma __save_unwritable job w id o js :
  disk w = Some (JObj o) → o !! "jobs" = Some (JList js) →
  next_job_id js = Some id → writable w = false →
  ∃ w', __save job w = (Raise OSError, w') ∧
        heap w' = <[job := <["job_id" := JInt id]> (heap w !!! job)]> (heap w) ∧
        disk w' = disk w ∧ held w' = held w.
Proof.
  intros Hdisk Ho Hnext Hwr. unfold __save.
  erewrite bind_Ret; last by (unfold JobDatabaseRead; rewrite Hdisk).
  erewrite bind_Ret; last by (unfold getitem; rewrite Ho).
  erewrite bind_Ret; last done.
  erewrite (bind_Ret _ _ _ id (log EvRead w)); last first.
  { unfold next_job_id in Hnext. case_bool_decide as Hn.
    - apply length_zero_iff_nil in Hn as ->. by simplify_eq/=.
    - erewrite bind_Ret; last by (unfold getitem; rewrite Ho).
      destruct (last js) as [r|] eqn:Hl; last first.
      { by apply last_None in Hl as ->. }
      erewrite bind_Ret; last by (unfold getitem_last; rewrite Hl).
      destruct r as [| | | | |r]; try done. simpl in Hnext.
      destruct (r !! "job_id") as [v|] eqn:Hv; [|done]. simpl in Hnext.
      erewrite bind_Ret; last by (unfold getitem; rewrite Hv).
      unfold add_one. destruct (as_int v); by simplify_eq/=. }
  erewrite bind_Ret; last done.
  erewrite bind_Ret; last by (unfold getitem; rewrite Ho).
  erewrite bind_Ret; last done.
  erewrite bind_Ret; last done.
  erewrite bind_Ret; last done.
  eexists. split.
  { apply bind_Raise. unfold JobDatabaseWrite. simpl. by rewrite Hwr. }
  done.
Qed.

(** X9: when the job is accepted and the next identifier can be computed
    but Job.json cannot be opened for writing, [save] raises the error of
    the write with the identifier already bound in the caller's dictionary,
    while the document and the set of held locks are as before the call. *)
Theorem save_write_failure_marks_the_job self job w e o js id :
  objects w !! self = Some e →
  validator e (heap w !!! job) = (true, None) → mutex e ∉ held w →
  disk w = Some (JObj o) → o !! "jobs" = Some (JList js) →
  next_job_id js = Some id → writable w = false →
  (save self job w).1 = Raise OSError ∧
  heap (save self job w).2
  = <[job := <["job_id" := JInt id]> (heap w !!! job)]> (heap w) ∧
  disk (save self job w).2 = disk w ∧
  held (save self job w).2 = held w.
Proof.
  intros Hobj Hv Hfree Hdisk Ho Hnext Hwr. unfold save.
  erewrite bind_Ret; last by (unfold attributes; rewrite Hobj).
  erewrite bind_Ret; last done.
  rewrite Hv. simpl.
  destruct (__save_unwritable job
              (log (EvAcquire (mutex e)) (set_held (mutex e :: held w) w))
              id o js Hdisk Ho Hnext Hwr)
    as (w' & Hsave & Hheap & Hdisk' & Hheld).
  erewrite bind_Raise; last first.
  { unfold lock_while_using_file, mbind, M_bind, acquire.
    rewrite bool_decide_eq_false_2 by done.
    unfold try_finally. by rewrite Hsave. }
  simpl. rewrite Hheap, Hdisk', Hheld. simpl.
  by rewrite filter_ne_cons_fresh.
Qed.

Lemma scenario_read_only_engine :
  objects Scenario.read_only !! Scenario.self = Some Scenario.engine.
Proof. reflexivity. Qed.

Lemma scenario_read_only_free :
  mutex Scenario.engine ∉ held Scenario.read_only.
Proof. vm_compute. apply not_elem_of_nil. Qed.

Lemma scenario_read_only_good_valid :
  validator Scenario.engine (heap Scenario.read_only !!! Scenario.good)
  = (true, None).
Proof. vm_compute. reflexivity. Qed.

Lemma scenario_read_only_disk :
  disk Scenario.read_only = Some (JObj {["jobs" := JList []]}).
Proof. reflexivity. Qed.

Lemma scenario_read_only_unwritable : writable Scenario.read_only = false.
Proof. reflexivity. Qed.

Lemma save_write_failure_marks_the_job_witness :
  (objects Scenario.read_only !! Scenario.self = Some Scenario.engine ∧
   validator Scenario.engine (heap Scenario.read_only !!! Scenario.good)
   = (true, None) ∧
   (mutex Scenario.engine ∉ held Scenario.read_only) ∧
   disk Scenario.read_only = Some (JObj {["jobs" := JList []]}) ∧
   ({["jobs" := JList []]} : gmap string json) !! "jobs" = Some (JList []) ∧
   next_job_id [] = Some 1 ∧
   writable Scenario.read_only = false) ∧
  (save Scenario.self Scenario.good Scenario.read_only).1 = Raise OSError ∧
  heap (save Scenario.self Scenario.good Scenario.read_only).2
  = <[Scenario.good :=
        <["job_id" := JInt 1]> (heap Scenario.read_only !!! Scenario.good)]>
      (heap Scenario.read_only) ∧
  disk (save Scenario.self Scenario.good Scenario.read_only).2
  = disk Scenario.read_only ∧
  held (save Scenario.self Scenario.good Scenario.read_only).2
  = held Scenario.read_only.
Proof.
  assert (({["jobs" := JList []]} : gmap string json) !! "jobs"
          = Some (JList [])) as Ho by reflexivity.
  assert (next_job_id [] = Some 1) as Hnext by reflexivity.
  split.
  { exact (conj scenario_read_only_engine
             (conj scenario_read_only_good_valid
                (conj scenario_read_only_free
                   (conj scenario_read_only_disk
                      (conj Ho (conj Hnext scenario_read_only_unwritable)))))). }
  exact (save_write_failure_marks_the_job Scenario.self Scenario.good
           Scenario.read_only Scenario.engine _ [] 1
           scenario_read_only_engine scenario_read_only_good_valid
           scenario_read_only_free scenario_read_only_disk Ho Hnext
           scenario_read_only_unwritable).
Defined.

(** ** Documents the engine cannot use *)

Lemma read_unusable {A : Type} (k : json → json → M A) w err :
  unusable (disk w) = Some err →
  (doc ← JobDatabaseRead; jobs ← getitem doc "jobs"; k doc jobs) w
  = (Raise err, log EvRead w).
Proof.
  intros Hun. unfold unusable in Hun.
  destruct (disk w) as [doc|] eqn:Hdisk.
  - erewrite bind_Ret; last by (unfold JobDatabaseRead; rewrite Hdisk).
    apply bind_Raise.
    destruct doc as [| | | | |o]; try (by injection Hun as <-).
    unfold getitem. destruct (o !! "jobs"); [done |]. by injection Hun as <-.
  - apply bind_Raise. unfold JobDatabaseRead. rewrite Hdisk. by simplify_eq.
Qed.

Lemma lock_Raise {A : Type} (m : loc) (body : M A) w e w1 :
  m ∉ held w →
  body (log (EvAcquire m) (set_held (m :: held w) w)) = (Raise e, w1) →
  lock_while_using_file m body w = (Raise e, release m w1).
Proof.
  intros Hfree Hbody. unfold lock_while_using_file, acquire, mbind, M_bind.
  rewrite bool_decide_eq_false_2 by done.
  unfold try_finally. by rewrite Hbody.
Qed.

(** X10: when Job.json cannot be opened ([OSError]), or holds a document
    that is not an object ([TypeError]) or an object without the key [jobs]
    ([KeyError]), [save] of an accepted job raises the exception of that
    first step with the caller's dictionary, the document and the held
    locks untouched, and [get_item] returns the same exception in
    [(None, False, err)]. *)
Theorem unusable_document_fails_before_any_change self job job_id w e err :
  objects w !! self = Some e → mutex e ∉ held w →
  validator e (heap w !!! job) = (true, None) →
  unusable (disk w) = Some err →
  (save self job w).1 = Raise err ∧
  heap (save self job w).2 = heap w ∧
  disk (save self job w).2 = disk w ∧
  held (save self job w).2 = held w ∧
  (get_item self job_id w).1 = Ret (None, false, Some err).
Proof.
  intros Hobj Hfree Hv Hun.
  assert (save self job w
          = (Raise err,
             release (mutex e) (log EvRead (locked (mutex e) w)))) as ->.
  { unfold save.
    erewrite bind_Ret; last by (unfold attributes; rewrite Hobj).
    erewrite bind_Ret; last done.
    rewrite Hv. simpl. apply bind_Raise, lock_Raise; [done |].
    unfold __save. by apply read_unusable. }
  simpl. rewrite filter_ne_cons_fresh by done.
  repeat (split; [done |]).
  unfold get_item.
  erewrite bind_Ret; last by (unfold attributes; rewrite Hobj).
  erewrite bind_Ret; last first.
  { unfold try_except. erewrite bind_Raise; [done |].
    apply lock_Raise; [done |]. unfold __get_item. by apply read_unusable. }
  done.
Qed.

Lemma unusable_document_fails_before_any_change_witness :
  (objects Scenario.no_document !! Scenario.self = Some Scenario.engine ∧
   (mutex Scenario.engine ∉ held Scenario.no_document) ∧
   validator Scenario.engine (heap Scenario.no_document !!! Scenario.good)
   = (true, None) ∧
   unusable (disk Scenario.no_document) = Some OSError) ∧
  (save Scenario.self Scenario.good Scenario.no_document).1 = Raise OSError ∧
  heap (save Scenario.self Scenario.good Scenario.no_document).2
  = heap Scenario.no_document ∧
  disk (save Scenario.self Scenario.good Scenario.no_document).2
  = disk Scenario.no_document ∧
  held (save Scenario.self Scenario.good Scenario.no_document).2
  = held Scenario.no_document ∧
  (get_item Scenario.self 1 Scenario.no_document).1
  = Ret (None, false, Some OSError).
Proof.
  assert (validator Scenario.engine
            (heap Scenario.no_document !!! Scenario.good) = (true, None))
    as Hv by (vm_compute; reflexivity).
  assert (unusable (disk Scenario.no_document) = Some OSError) as Hun
    by reflexivity.
  split.
  { exact (conj scenario_no_document_engine
             (conj scenario_no_document_free (conj Hv Hun))). }
  exact (unusable_document_fails_before_any_change Scenario.self
           Scenario.good 1 Scenario.no_document Scenario.engine OSError
           scenario_no_document_engine scenario_no_document_free Hv Hun).
Defined.

Lemma __save_no_next_id job w o js :
  disk w = Some (JObj o) → o !! "jobs" = Some (JList js) →
  next_job_id js = None →
  ∃ err, __save job w = (Raise err, log EvRead w) ∧
         (err = KeyError ∨ err = TypeError).
Proof.
  intros Hdisk Ho Hnext. unfold next_job_id in Hnext.
  destruct (last js) as [r|] eqn:Hlast; [|done].
  assert (length js ≠ 0%nat) as Hlen.
  { intros Hn. apply length_zero_iff_nil in Hn as ->. done. }
  assert (∃ err, (v ← getitem r "job_id"; add_one v) (log EvRead w)
                 = (Raise err, log EvRead w) ∧
                 (err = KeyError ∨ err = TypeError)) as (err & Hid & Herr).
  { destruct r as [| | | | |ro]; try (exists TypeError; by eauto).
    simpl in Hnext. destruct (ro !! "job_id") as [v|] eqn:Hv.
    - exists TypeError. split; [|by right].
      erewrite bind_Ret; last by (unfold getitem; rewrite Hv).
      unfold add_one. simpl in Hnext. by destruct (as_int v).
    - exists KeyError. split; [|by left].
      apply bind_Raise. unfold getitem. by rewrite Hv. }
  exists err. split; [|done]. unfold __save.
  erewrite bind_Ret; last by (unfold JobDatabaseRead; rewrite Hdisk).
  erewrite bind_Ret; last by (unfold getitem; rewrite Ho).
  erewrite bind_Ret; last done.
  apply bind_Raise. rewrite bool_decide_eq_false_2 by done.
  erewrite bind_Ret; last by (unfold getitem; rewrite Ho).
  erewrite bind_Ret; last by (unfold getitem_last; rewrite Hlast).
  exact Hid.
Qed.

(** X11: when the last record of the collection has no integer [job_id]
    (no such key, or a value that is not a number), [save] of an accepted
    job raises [KeyError] or [TypeError] instead of choosing an identifier,
    and the caller's dictionary, the document and the held locks are as
    before the call. *)
Theorem save_refuses_a_last_record_without_id self job w e js :
  objects w !! self = Some e → mutex e ∉ held w →
  validator e (heap w !!! job) = (true, None) →
  collection (disk w) = Some js → next_job_id js = None →
  ((save self job w).1 = Raise KeyError ∨
   (save self job w).1 = Raise TypeError) ∧
  heap (save self job w).2 = heap w ∧
  disk (save self job w).2 = disk w ∧
  held (save self job w).2 = held w.
Proof.
  intros Hobj Hfree Hv Hjs Hnext.
  apply collection_Some in Hjs as (o & Hdisk & Ho).
  destruct (__save_no_next_id job
              (log (EvAcquire (mutex e)) (set_held (mutex e :: held w) w))
              o js Hdisk Ho Hnext) as (err & Hsave & Herr).
  assert (save self job w
          = (Raise err,
             release (mutex e) (log EvRead (locked (mutex e) w)))) as ->.
  { unfold save.
    erewrite bind_Ret; last by (unfold attributes; rewrite Hobj).
    erewrite bind_Ret; last done.
    rewrite Hv. simpl. by apply bind_Raise, lock_Raise. }
  simpl. rewrite filter_ne_cons_fresh by done.
  split; [|done]. destruct Herr as [-> | ->]; eauto.
Qed.

Lemma edge_keyless_last_engine :
  objects Edge.keyless_last !! Scenario.self = Some Scenario.engine.
Proof. reflexivity. Qed.

Lemma edge_keyless_last_free :
  mutex Scenario.engine ∉ held Edge.keyless_last.
Proof. vm_compute. apply not_elem_of_nil. Qed.

Lemma edge_keyless_last_good_valid :
  validator Scenario.engine (heap Edge.keyless_last !!! Scenario.good)
  = (true, None).
Proof. vm_compute. reflexivity. Qed.

Lemma edge_keyless_last_collection :
  collection (disk Edge.keyless_last) = Some [JObj ∅].
Proof. reflexivity. Qed.

Lemma save_refuses_a_last_record_without_id_witness :
  (objects Edge.keyless_last !! Scenario.self = Some Scenario.engine ∧
   (mutex Scenario.engine ∉ held Edge.keyless_last) ∧
   validator Scenario.engine (heap Edge.keyless_last !!! Scenario.good)
   = (true, None) ∧
   collection (disk Edge.keyless_last) = Some [JObj ∅] ∧
   next_job_id [JObj ∅] = None) ∧
  (save Scenario.self Scenario.good Edge.keyless_last).1 = Raise KeyError ∧
  ((save Scenario.self Scenario.good Edge.keyless_last).1 = Raise KeyError ∨
   (save Scenario.self Scenario.good Edge.keyless_last).1 = Raise TypeError) ∧
  heap (save Scenario.self Scenario.good Edge.keyless_last).2
  = heap Edge.keyless_last ∧
  disk (save Scenario.self Scenario.good Edge.keyless_last).2
  = disk Edge.keyless_last ∧
  held (save Scenario.self Scenario.good Edge.keyless_last).2
  = held Edge.keyless_last.
Proof.
  assert (next_job_id [JObj ∅] = None) as Hnext by reflexivity.
  split.
  { exact (conj edge_keyless_last_engine
             (conj edge_keyless_last_free
                (conj edge_keyless_last_good_valid
                   (conj edge_keyless_last_collection Hnext)))). }
  split; [vm_compute; reflexivity |].
  exact (save_refuses_a_last_record_without_id Scenario.self Scenario.good
           Edge.keyless_last Scenario.engine _ edge_keyless_last_engine
           edge_keyless_last_free edge_keyless_last_good_valid
           edge_keyless_last_collection Hnext).
Defined.

(** ** Answers of the chain that are not a plain acceptance *)

(** X12: [save] enters its critical section only when the chain answers
    exactly [(True, None)]: on any other answer, also [(True, err)] with an
    error and [(False, None)] without one, it returns [(None, False, err)]
    with the error component of the answer and the world is as before the
    call. *)
Theorem save_persists_only_on_plain_acceptance self job w e :
  objects w !! self = Some e →
  validator e (heap w !!! job) ≠ (true, None) →
  save self job w
  = (Ret (None, false, (validator e (heap w !!! job)).2), w).
Proof.
  intros Hobj Hv.
  destruct (validator e (heap w !!! job)) as [is_valid err] eqn:Hanswer.
  apply (save_rejected self job w e is_valid err Hobj Hanswer).
  destruct is_valid; [|by left]. right.
  destruct err as [x|]; [by exists x | done].
Qed.

Lemma edge_warned_engine :
  objects Edge.warned !! Scenario.self
  = Some (mkEngine 1%nat Edge.warning_chain).
Proof. reflexivity. Qed.

Lemma save_persists_only_on_plain_acceptance_witness :
  (objects Edge.warned !! Scenario.self
   = Some (mkEngine 1%nat Edge.warning_chain) ∧
   validator (mkEngine 1%nat Edge.warning_chain)
     (heap Edge.warned !!! Scenario.good) ≠ (true, None)) ∧
  save Scenario.self Scenario.good Edge.warned
  = (Ret (None, false,
          (validator (mkEngine 1%nat Edge.warning_chain)
             (heap Edge.warned !!! Scenario.good)).2), Edge.warned).
Proof.
  assert (validator (mkEngine 1%nat Edge.warning_chain)
            (heap Edge.warned !!! Scenario.good) ≠ (true, None)) as Hv
    by (intros [=]).
  split; [exact (conj edge_warned_engine Hv) |].
  exact (save_persists_only_on_plain_acceptance Scenario.self Scenario.good
           Edge.warned _ edge_warned_engine Hv).
Defined.

(** ** Constructions *)

(** X13: a call of [JobDatabaseEngine()] binds to the instance a lock that
    nobody holds, whatever locks are held in the process (every held lock
    was allocated before), and the chain; it touches neither the document
    nor the dictionaries of the callers nor the set of held locks. *)
Theorem construction_binds_a_free_lock chain w :
  Forall (λ m, (m < next_id w)%nat) (held w) →
  ∃ self e w',
    JobDatabaseEngine chain w = (Ret self, w') ∧
    jobdatabase_instance w' = Some self ∧
    objects w' !! self = Some e ∧ validator e = chain ∧
    (mutex e ∉ held w') ∧ held w' = held w ∧
    disk w' = disk w ∧ heap w' = heap w.
Proof.
  intros Hheld. rewrite JobDatabaseEngine_run.
  destruct (jobdatabase_instance w) as [self|] eqn:Hinst.
  - exists self. eexists. eexists. split; [done |]. simpl.
    rewrite lookup_insert_eq. repeat (split; [done |]). simpl.
    split; [|done]. intros Hin.
    rewrite Forall_forall in Hheld. specialize (Hheld _ Hin). lia.
  - exists (next_id w). eexists. eexists. split; [done |]. simpl.
    rewrite lookup_insert_eq. repeat (split; [done |]). simpl.
    split; [|done]. intros Hin.
    rewrite Forall_forall in Hheld. specialize (Hheld _ Hin). lia.
Qed.

Lemma construction_binds_a_free_lock_witness :
  Forall (λ m, (m < next_id Scenario.in_critical_section)%nat)
         (held Scenario.in_critical_section) ∧
  held Scenario.in_critical_section = [mutex Scenario.engine] ∧
  ∃ self e w',
    JobDatabaseEngine ValidatorChains.get_job_validator_chain
      Scenario.in_critical_section = (Ret self, w') ∧
    jobdatabase_instance w' = Some self ∧
    objects w' !! self = Some e ∧
    validator e = ValidatorChains.get_job_validator_chain ∧
    (mutex e ∉ held w') ∧ held w' = held Scenario.in_critical_section ∧
    disk w' = disk Scenario.in_critical_section ∧
    heap w' = heap Scenario.in_critical_section.
Proof.
  assert (Forall (λ m, (m < next_id Scenario.in_critical_section)%nat)
                 (held Scenario.in_critical_section)) as Hheld.
  { vm_compute. repeat constructor. }
  split; [exact Hheld |]. split; [reflexivity |].
  exact (construction_binds_a_free_lock
           ValidatorChains.get_job_validator_chain
           Scenario.in_critical_section Hheld).
Defined.

Lemma construction_keeps_instance chain w self :
  jobdatabase_instance w = Some self →
  ∃ w', JobDatabaseEngine chain w = (Ret self, w') ∧
        jobdatabase_instance w' = Some self ∧
        disk w' = disk w ∧ heap w' = heap w ∧ held w' = held w ∧
        next_id w' = S (next_id w).
Proof.
  intros Hinst. rewrite JobDatabaseEngine_run, Hinst. eexists.
  split; [done |]. done.
Qed.

Lemma construct_times_registered chain n w self :
  jobdatabase_instance w = Some self →
  ∃ w', construct_times chain n w = (Ret (replicate n self), w') ∧
        jobdatabase_instance w' = Some self ∧
        disk w' = disk w ∧ heap w' = heap w ∧ held w' = held w ∧
        next_id w' = (next_id w + n)%nat.
Proof.
  revert w. induction n as [|n IH]; intros w Hinst; simpl.
  - exists w. by rewrite Nat.add_0_r.
  - destruct (construction_keeps_instance chain w self Hinst)
      as (w1 & Hrun & Hinst1 & Hdisk1 & Hheap1 & Hheld1 & Hnext1).
    destruct (IH w1 Hinst1) as (w2 & Hrest & Hinst2 & Hdisk2 & Hheap2 & Hheld2 & Hnext2).
    exists w2. erewrite bind_Ret; last exact Hrun.
    erewrite bind_Ret; last exact Hrest.
    split; [done |]. split; [done |].
    split; [congruence |]. split; [congruence |]. split; [congruence |]. lia.
Qed.

(** X14: any number of calls of [JobDatabaseEngine()] in a row return one
    and the same instance, the one the class had registered before if there
    was one; they leave the document, the dictionaries of the callers and
    the set of held locks as they were, and each call allocates a lock: the
    process holds one more object per call, plus the instance itself when it
    is first created. *)
Theorem constructions_return_one_instance chain n w :
  ∃ self w',
    construct_times chain (S n) w = (Ret (replicate (S n) self), w') ∧
    jobdatabase_instance w' = Some self ∧
    (jobdatabase_instance w = None ∨ jobdatabase_instance w = Some self) ∧
    disk w' = disk w ∧ heap w' = heap w ∧ held w' = held w ∧
    next_id w'
    = (next_id w + S n
       + match jobdatabase_instance w with Some _ => 0 | None => 1 end)%nat.
Proof.
  destruct (jobdatabase_instance w) as [s|] eqn:Hinst.
  - destruct (construct_times_registered chain (S n) w s Hinst)
      as (w' & Hrun & Hinst' & Hdisk & Hheap & Hheld & Hnext).
    exists s, w'. repeat (split; [done |]).
    split; [by right |]. repeat (split; [done |]). lia.
  - exists (next_id w).
    pose proof (JobDatabaseEngine_run chain w) as Hfirst.
    rewrite Hinst in Hfirst.
    match type of Hfirst with _ = (_, ?w1) =>
      destruct (construct_times_registered chain n w1 (next_id w) eq_refl)
        as (w2 & Hrest & Hinst2 & Hdisk & Hheap & Hheld & Hnext)
    end.
    exists w2. simpl.
    erewrite bind_Ret; last exact Hfirst.
    erewrite bind_Ret; last exact Hrest.
    split; [done |]. split; [done |]. split; [by left |].
    repeat (split; [done |]). simpl in Hnext. lia.
Qed.

(** ** Lookups see the document, not the callers *)

Lemma document_determined_pure {A : Type} (p : M A) :
  (∀ w1 w2, (p w1).1 = (p w2).1) → (∀ w, (p w).2 = w) →
  document_determined p.
Proof. intros Hout Hsame w1 w2 Hdisk. by rewrite !Hsame. Qed.

Lemma document_determined_bind {A B : Type} (p : M A) (k : A → M B) :
  document_determined p → (∀ a, document_determined (k a)) →
  document_determined (p ≫= k).
Proof.
  intros Hp Hk w1 w2 Hdisk. destruct (Hp w1 w2 Hdisk) as [Hout Hdisk'].
  unfold mbind, M_bind.
  destruct (p w1) as [[a1|e1|] w1'], (p w2) as [[a2|e2|] w2'];
    simpl in *; simplify_eq; try done.
  by apply Hk.
Qed.

Lemma document_determined_getitem v k : document_determined (getitem v k).
Proof.
  apply document_determined_pure; intros; unfold getitem;
    by repeat case_match.
Qed.

Lemma document_determined_search_from js job_id idx :
  document_determined (search_from js job_id idx).
Proof.
  revert idx. induction js as [|r js IH]; intros idx; simpl.
  - by apply document_determined_pure.
  - apply document_determined_bind; [apply document_determined_getitem |].
    intros v. destruct (eq_int v job_id);
      [by apply document_determined_pure | apply IH].
Qed.

Lemma document_determined___get_item job_id :
  document_determined (__get_item job_id).
Proof.
  unfold __get_item. apply document_determined_bind.
  { intros w1 w2 Hdisk. unfold JobDatabaseRead. rewrite Hdisk.
    destruct (disk w2) eqn:Hd; simpl; split; congruence. }
  intros doc.
  apply document_determined_bind; [apply document_determined_getitem |].
  intros storage. apply document_determined_bind.
  { unfold search_job_by_job_id.
    destruct storage; try by apply document_determined_pure.
    apply document_determined_search_from. }
  intros [is_exists idx].
  destruct is_exists; simpl; [|by apply document_determined_pure].
  apply document_determined_bind; [|intros; by apply document_determined_pure].
  apply document_determined_pure; intros; unfold getitem_idx;
    by repeat case_match.
Qed.

(** X15: what [get_item] answers depends on the world through Job.json
    alone: in two worlds with the same document, whatever the callers did
    to their dictionaries in between, a constructed instance with a free
    lock gives the same answer for the same identifier. *)
Theorem get_item_answers_from_the_document self job_id w1 w2 e1 e2 :
  objects w1 !! self = Some e1 → mutex e1 ∉ held w1 →
  objects w2 !! self = Some e2 → mutex e2 ∉ held w2 →
  disk w1 = disk w2 →
  (get_item self job_id w1).1 = (get_item self job_id w2).1.
Proof.
  intros Hobj1 Hfree1 Hobj2 Hfree2 Hdisk. unfold get_item.
  erewrite bind_Ret; last by (unfold attributes; rewrite Hobj1).
  erewrite (bind_Ret _ _ w2); last by (unfold attributes; rewrite Hobj2).
  unfold mbind, M_bind, try_except, lock_while_using_file, acquire.
  unfold mbind, M_bind.
  rewrite !bool_decide_eq_false_2 by done. unfold try_finally.
  destruct (document_determined___get_item job_id
              (log (EvAcquire (mutex e1)) (set_held (mutex e1 :: held w1) w1))
              (log (EvAcquire (mutex e2)) (set_held (mutex e2 :: held w2) w2))
              Hdisk) as [Hout _].
  destruct (__get_item job_id _) as [[[s1 r1]|x1|] w1'],
           (__get_item job_id _) as [[[s2 r2]|x2|] w2'];
    simpl in *; simplify_eq; try done.
  by destruct s2.
Qed.

Lemma scenario_after_one_engine :
  objects Scenario.after_one !! Scenario.self = Some Scenario.engine.
Proof. reflexivity. Qed.

Lemma scenario_after_one_free :
  mutex Scenario.engine ∉ held Scenario.after_one.
Proof. vm_compute. apply not_elem_of_nil. Qed.

Lemma edge_caller_forgot_engine :
  objects Edge.caller_forgot !! Scenario.self = Some Scenario.engine.
Proof. reflexivity. Qed.

Lemma edge_caller_forgot_free :
  mutex Scenario.engine ∉ held Edge.caller_forgot.
Proof. vm_compute. apply not_elem_of_nil. Qed.

Lemma edge_caller_forgot_disk :
  disk Scenario.after_one = disk Edge.caller_forgot.
Proof. reflexivity. Qed.

Lemma get_item_answers_from_the_document_witness :
  (objects Scenario.after_one !! Scenario.self = Some Scenario.engine ∧
   (mutex Scenario.engine ∉ held Scenario.after_one) ∧
   objects Edge.caller_forgot !! Scenario.self = Some Scenario.engine ∧
   (mutex Scenario.engine ∉ held Edge.caller_forgot) ∧
   disk Scenario.after_one = disk Edge.caller_forgot) ∧
  heap Edge.caller_forgot !! Scenario.good = None ∧
  (get_item Scenario.self 1 Scenario.after_one).1
  = (get_item Scenario.self 1 Edge.caller_forgot).1.
Proof.
  split.
  { exact (conj scenario_after_one_engine
             (conj scenario_after_one_free
                (conj edge_caller_forgot_engine
                   (conj edge_caller_forgot_free edge_caller_forgot_disk)))). }
  split; [reflexivity |].
  exact (get_item_answers_from_the_document Scenario.self 1
           Scenario.after_one Edge.caller_forgot _ _
           scenario_after_one_engine scenario_after_one_free
           edge_caller_forgot_engine edge_caller_forgot_free
           edge_caller_forgot_disk).
Defined.
